(** * autoUpdate: when to recompute the position of a floating element

    Shallow embedding of [packages/dom/src/autoUpdate.ts].

    The function wires one [update] callback to four sources of change
    (scroll and resize listeners on the overflow ancestors, a
    [ResizeObserver], and an animation-frame loop that samples the
    rectangle of the reference) and returns a disposer.  All of this is
    stateful, so the embedding is a small state-and-exception monad over a
    [World]: the closure variables of one call of [autoUpdate] together
    with the registrations that call holds in the host (the browser).  The
    host is modelled by the events it can deliver to those registrations:
    a listener, an observer callback or a frame callback runs only while it
    is registered, and each world carries the trace of what the call has
    done so far.

    The [update] callback belongs to the caller.  Its effect on the page is
    outside this file; what matters here is that it is called, and that it
    may in turn call the disposer that [autoUpdate] has returned. *)

From Stdlib Require PrimFloat.
From stdpp Require Import base decidable option list.

(** ** Data *)

(** DOM nodes (elements, [window], [visualViewport]) by identity. *)
Definition Node := nat.

(** The two event types [autoUpdate] listens for. *)
Inductive EventType := scroll | resize.

#[global] Instance EventType_eq_dec : EqDecision EventType.
Proof. solve_decision. Defined.

(** [ReferenceElement = Element | VirtualElement]; a virtual element has a
    [getBoundingClientRect] method and an optional [contextElement].
    [isElement(reference)] is the test for the first constructor. *)
Inductive ReferenceElement :=
| Element (el : Node)
| VirtualElement (contextElement : option Node).

Definition isElement (reference : ReferenceElement) : bool :=
  match reference with Element _ => true | VirtualElement _ => false end.

(** [Partial<Options>]: every field may be absent. *)
Module Options.
Record t := mk {
  ancestorScroll : option bool;
  ancestorResize : option bool;
  elementResize : option bool;
  animationFrame : option bool
}.
(** [options = {}] *)
Definition empty : t := mk None None None None.
End Options.

(** Rectangles.  The coordinates are JavaScript numbers, which the code
    compares with [!==] and does nothing else with; they are taken from any
    type [Num] that has this comparison. *)
Module Rect.
Record t (Num : Type) := mk { x : Num; y : Num; width : Num; height : Num }.
Arguments mk {Num}.
Arguments x {Num}.
Arguments y {Num}.
Arguments width {Num}.
Arguments height {Num}.
End Rect.

(** [a !== b] on numbers.  No law is assumed of it: on the numbers of
    JavaScript, the IEEE doubles, it is not the negation of an equality,
    since [NaN !== NaN] holds (and [0 !== -0] does not). *)
Class StrictNe (Num : Type) := strict_ne : Num → Num → bool.

(** The numbers of JavaScript. *)
#[global] Instance float_strict_ne : StrictNe PrimFloat.float :=
  λ a b, negb (PrimFloat.eqb a b).

(** Numbers that are integers. *)
#[global] Instance Z_strict_ne : StrictNe Z := λ a b, negb (Z.eqb a b).

(** What one call of [autoUpdate] does that can be seen from outside, in the
    order in which it happens. *)
Inductive Effect :=
| EUpdate                                        (* update() *)
| EStop                                          (* the disposer is entered *)
| EGetOverflowAncestors (n : Node)
| EAddEventListener (n : Node) (t : EventType)
| ERemoveEventListener (n : Node) (t : EventType)
| EResizeObserve (n : Node)
| EResizeDisconnect
| EIntersectionObserve (o : nat) (n : Node)
| EIntersectionDisconnect (o : nat)
| ESampleRect                                    (* const nextRefRect = ... *)
| ERequestAnimationFrame (id : nat)
| ECancelAnimationFrame (id : nat).

#[global] Instance Effect_eq_dec : EqDecision Effect.
Proof. solve_decision. Defined.

Definition is_update (e : Effect) : bool :=
  match e with EUpdate => true | _ => false end.

(** Number of calls of [update] in a trace. *)
Definition count_updates (tr : list Effect) : nat :=
  length (List.filter is_update tr).

Definition is_stop (e : Effect) : bool :=
  match e with EStop => true | _ => false end.

(** Number of calls of the disposer in a trace. *)
Definition count_stops (tr : list Effect) : nat :=
  length (List.filter is_stop tr).

(** A page for the examples: element 1 has the overflow ancestors 10 and 11,
    element 2 has 11 and 12; two rectangles, and one whose x is NaN (as the
    [getBoundingClientRect] of a virtual reference, which the caller
    writes, can return); some options; and two callers,
    one whose [update] never calls the disposer and one whose [update] calls
    it in its second call. *)
Module Page.
Definition overflowAncestors (n : Node) : list Node :=
  match n with
  | 1 => [10; 11]
  | 2 => [11; 12]
  | _ => []
  end.
Definition at_origin : Rect.t Z := Rect.mk 0%Z 0%Z 10%Z 10%Z.
Definition moved : Rect.t Z := Rect.mk 5%Z 0%Z 10%Z 10%Z.
Definition not_a_number : Rect.t PrimFloat.float :=
  Rect.mk PrimFloat.nan PrimFloat.zero PrimFloat.one PrimFloat.one.
Definition polling : Options.t := Options.mk None None None (Some true).
Definition all_on : Options.t :=
  Options.mk (Some true) (Some true) (Some true) (Some true).
Definition untracked : Options.t :=
  Options.mk (Some false) (Some false) None None.
Definition plain (k : nat) : bool := false.
Definition stopping_second (k : nat) : bool := Nat.eqb k 1.
End Page.

Section Model.

Set Default Proof Using "Type".

Context {Num : Type} `{!StrictNe Num}.

Abbreviation DOMRect := (Rect.t Num).

(** ** The world *)

Record World := mkWorld {
  (* closure variables of the call *)
  ancestors : list Node;
  initialUpdate : bool;
  resizeObserver : option unit;        (* ResizeObserver | null *)
  frameId : option nat;                (* number | null *)
  intersectionObserver : option nat;   (* IntersectionObserver | null *)
  prevRefRect : option DOMRect;        (* DOMRect | null *)
  (* what the host holds for this call *)
  listeners : list (Node * EventType); (* [update] as a listener *)
  ro_targets : list Node;              (* targets of the ResizeObserver *)
  io_targets : list (nat * Node);      (* connected IntersectionObservers *)
  io_created : nat;                    (* IntersectionObservers made so far *)
  raf_pending : list nat;              (* frame requests not yet run *)
  raf_counter : nat;                   (* animation frame callback identifier *)
  ref_rect : DOMRect;                  (* where the reference is now *)
  (* the caller *)
  stop_returned : bool;                (* the caller holds the disposer *)
  trace : list Effect
}.


(** Assignment to one field. *)
Definition set_ancestors v (w : World) : World :=
  let '(mkWorld a iu ro fid io prev ls rts its ioc pend cnt rr sr tr) := w in
  mkWorld v iu ro fid io prev ls rts its ioc pend cnt rr sr tr.
Definition set_initialUpdate v (w : World) : World :=
  let '(mkWorld a iu ro fid io prev ls rts its ioc pend cnt rr sr tr) := w in
  mkWorld a v ro fid io prev ls rts its ioc pend cnt rr sr tr.
Definition set_resizeObserver v (w : World) : World :=
  let '(mkWorld a iu ro fid io prev ls rts its ioc pend cnt rr sr tr) := w in
  mkWorld a iu v fid io prev ls rts its ioc pend cnt rr sr tr.
Definition set_frameId v (w : World) : World :=
  let '(mkWorld a iu ro fid io prev ls rts its ioc pend cnt rr sr tr) := w in
  mkWorld a iu ro v io prev ls rts its ioc pend cnt rr sr tr.
Definition set_intersectionObserver v (w : World) : World :=
  let '(mkWorld a iu ro fid io prev ls rts its ioc pend cnt rr sr tr) := w in
  mkWorld a iu ro fid v prev ls rts its ioc pend cnt rr sr tr.
Definition set_prevRefRect v (w : World) : World :=
  let '(mkWorld a iu ro fid io prev ls rts its ioc pend cnt rr sr tr) := w in
  mkWorld a iu ro fid io v ls rts its ioc pend cnt rr sr tr.
Definition set_listeners v (w : World) : World :=
  let '(mkWorld a iu ro fid io prev ls rts its ioc pend cnt rr sr tr) := w in
  mkWorld a iu ro fid io prev v rts its ioc pend cnt rr sr tr.
Definition set_ro_targets v (w : World) : World :=
  let '(mkWorld a iu ro fid io prev ls rts its ioc pend cnt rr sr tr) := w in
  mkWorld a iu ro fid io prev ls v its ioc pend cnt rr sr tr.
Definition set_io_targets v (w : World) : World :=
  let '(mkWorld a iu ro fid io prev ls rts its ioc pend cnt rr sr tr) := w in
  mkWorld a iu ro fid io prev ls rts v ioc pend cnt rr sr tr.
Definition set_io_created v (w : World) : World :=
  let '(mkWorld a iu ro fid io prev ls rts its ioc pend cnt rr sr tr) := w in
  mkWorld a iu ro fid io prev ls rts its v pend cnt rr sr tr.
Definition set_raf_pending v (w : World) : World :=
  let '(mkWorld a iu ro fid io prev ls rts its ioc pend cnt rr sr tr) := w in
  mkWorld a iu ro fid io prev ls rts its ioc v cnt rr sr tr.
Definition set_raf_counter v (w : World) : World :=
  let '(mkWorld a iu ro fid io prev ls rts its ioc pend cnt rr sr tr) := w in
  mkWorld a iu ro fid io prev ls rts its ioc pend v rr sr tr.
Definition set_ref_rect v (w : World) : World :=
  let '(mkWorld a iu ro fid io prev ls rts its ioc pend cnt rr sr tr) := w in
  mkWorld a iu ro fid io prev ls rts its ioc pend cnt v sr tr.
Definition set_stop_returned v (w : World) : World :=
  let '(mkWorld a iu ro fid io prev ls rts its ioc pend cnt rr sr tr) := w in
  mkWorld a iu ro fid io prev ls rts its ioc pend cnt rr v tr.
Definition set_trace v (w : World) : World :=
  let '(mkWorld a iu ro fid io prev ls rts its ioc pend cnt rr sr tr) := w in
  mkWorld a iu ro fid io prev ls rts its ioc pend cnt rr sr v.

(** The world in which [autoUpdate] is called: nothing is registered yet,
    and the reference is at [r]. *)
Definition init (r : DOMRect) : World :=
  mkWorld [] true None None None None [] [] [] 0 [] 0 r false [].

(** Calls of [update], and of the disposer, so far. *)
Definition updates (w : World) : nat := count_updates (trace w).
Definition stops (w : World) : nat := count_stops (trace w).

(** ** The monad: state, and [None] for an uncaught exception *)

Definition M (A : Type) : Type := World -> option A * World.

Definition ret {A} (a : A) : M A := fun w => (Some a, w).

Definition bind {A B} (m : M A) (f : A -> M B) : M B :=
  fun w => match m w with
           | (Some a, w') => f a w'
           | (None, w') => (None, w')
           end.

Definition throw {A} : M A := fun w => (None, w).
Definition gets {A} (f : World -> A) : M A := fun w => (Some (f w), w).
Definition modify (f : World -> World) : M unit := fun w => (Some tt, f w).

Notation "x <- m ;; k" := (bind m (fun x => k))
  (at level 100, m at next level, right associativity).
Notation "m ;; k" := (bind m (fun _ => k))
  (at level 100, right associativity).

Definition emit (e : Effect) : M unit :=
  modify (fun w => set_trace (trace w ++ [e]) w).

(** [b && action] as a statement. *)
Definition when (b : bool) (m : M unit) : M unit := if b then m else ret tt.

(** [l.forEach(f)] *)
Fixpoint forEach {A} (l : list A) (f : A -> M unit) : M unit :=
  match l with
  | [] => ret tt
  | a :: l' => f a ;; forEach l' f
  end.

(** [h.method(...)] on a nullable [h]: a TypeError when [h] is null. *)
Definition method {A B} (h : option A) (f : A -> M B) : M B :=
  match h with Some a => f a | None => throw end.

(** [h?.method(...)]: nothing happens when [h] is null. *)
Definition optional_method {A} (h : option A) (f : A -> M unit) : M unit :=
  match h with Some a => f a | None => ret tt end.

(** ** The host *)

(** [addEventListener]: a listener that is already there is not added again. *)
Definition addEventListener (n : Node) (t : EventType) : M unit :=
  emit (EAddEventListener n t) ;;
  modify (fun w =>
    if decide ((n, t) ∈ listeners w) then w
    else set_listeners (listeners w ++ [(n, t)]) w).

Definition removeEventListener (n : Node) (t : EventType) : M unit :=
  emit (ERemoveEventListener n t) ;;
  modify (fun w => set_listeners (filter (λ l, l ≠ (n, t)) (listeners w)) w).

Definition ResizeObserver_observe (n : Node) (_ : unit) : M unit :=
  emit (EResizeObserve n) ;;
  modify (fun w =>
    if decide (n ∈ ro_targets w) then w
    else set_ro_targets (ro_targets w ++ [n]) w).

Definition ResizeObserver_disconnect (_ : unit) : M unit :=
  emit EResizeDisconnect ;;
  modify (set_ro_targets []).

(** [new IntersectionObserver(callback)]: a fresh observer. *)
Definition new_IntersectionObserver : M nat :=
  o <- gets io_created ;;
  modify (set_io_created (S o)) ;;
  ret o.

Definition IntersectionObserver_observe (n : Node) (o : nat) : M unit :=
  emit (EIntersectionObserve o n) ;;
  modify (fun w => set_io_targets (io_targets w ++ [(o, n)]) w).

Definition IntersectionObserver_disconnect (o : nat) : M unit :=
  emit (EIntersectionDisconnect o) ;;
  modify (fun w => set_io_targets (filter (λ p, p.1 ≠ o) (io_targets w)) w).

(** [requestAnimationFrame(frameLoop)]: the identifier is incremented, then
    returned, so it is never zero. *)
Definition requestAnimationFrame : M nat :=
  c <- gets raf_counter ;;
  let id := S c in
  emit (ERequestAnimationFrame id) ;;
  modify (set_raf_counter id) ;;
  modify (fun w => set_raf_pending (raf_pending w ++ [id]) w) ;;
  ret id.

Definition cancelAnimationFrame (id : nat) : M unit :=
  emit (ECancelAnimationFrame id) ;;
  modify (fun w => set_raf_pending (filter (λ i, i ≠ id) (raf_pending w)) w).

(** [getBoundingClientRect(reference)] *)
Definition getBoundingClientRect : M DOMRect := gets ref_rect.

(** ** autoUpdate *)

(** [getOverflowAncestors] is imported; [stops_on k] tells whether the
    caller's [update] callback, when it is called with [k] calls before it,
    calls the disposer of this very setup. *)
Variable getOverflowAncestors : Node -> list Node.
Variable stops_on : nat -> bool.

Variable reference : ReferenceElement.
Variable floating : Node.
Variable options : Options.t.

Definition _ancestorScroll : bool := default true (Options.ancestorScroll options).
Definition ancestorResize : bool := default true (Options.ancestorResize options).
Definition elementResize : bool := default true (Options.elementResize options).
Definition animationFrame : bool := default false (Options.animationFrame options).

Definition ancestorScroll : bool := _ancestorScroll && negb animationFrame.

Definition call_getOverflowAncestors (n : Node) : M (list Node) :=
  emit (EGetOverflowAncestors n) ;;
  ret (getOverflowAncestors n).

(** The function that [autoUpdate] returns. *)
Definition stop : M unit :=
  emit EStop ;;
  anc <- gets ancestors ;;
  forEach anc (fun ancestor =>
    when ancestorScroll (removeEventListener ancestor scroll) ;;
    when ancestorResize (removeEventListener ancestor resize)) ;;
  ro <- gets resizeObserver ;;
  optional_method ro ResizeObserver_disconnect ;;
  modify (set_resizeObserver None) ;;
  io <- gets intersectionObserver ;;
  optional_method io IntersectionObserver_disconnect ;;
  modify (set_intersectionObserver None) ;;
  fid <- gets frameId ;;
  match fid with
  | Some (S _ as id) => cancelAnimationFrame id     (* if (frameId) *)
  | _ => ret tt
  end.

(** A call of the caller's [update].  The callback is opaque, except that
    it may call the disposer once the caller has it.  It is taken to
    return: a callback that throws would leave the function that calls it
    at the call, and what is proved below of the steps after a call of
    [update] is proved of a caller whose [update] returns. *)
Definition update : M unit :=
  k <- gets updates ;;
  emit EUpdate ;;
  r <- gets stop_returned ;;
  when (stops_on k && r) stop.

(** [nextRefRect.x !== prevRefRect.x || ...] *)
Definition rect_differs (nextRefRect prevRefRect : DOMRect) : bool :=
  strict_ne (Rect.x nextRefRect) (Rect.x prevRefRect)
  || strict_ne (Rect.y nextRefRect) (Rect.y prevRefRect)
  || strict_ne (Rect.width nextRefRect) (Rect.width prevRefRect)
  || strict_ne (Rect.height nextRefRect) (Rect.height prevRefRect).

(** [prevRefRect && (...)] *)
Definition rect_changed (prev : option DOMRect) (nextRefRect : DOMRect) : bool :=
  match prev with
  | Some prevRefRect => rect_differs nextRefRect prevRefRect
  | None => false
  end.

(** The callback given to [new IntersectionObserver]; an entry is
    represented by its [boundingClientRect]. *)
Definition intersectionCallback (entries : list DOMRect) : M unit :=
  match entries with
  | [] => ret tt                                  (* if (!referenceEntry) return *)
  | referenceEntry :: _ =>
    emit ESampleRect ;;
    let nextRefRect := referenceEntry in
    prev <- gets prevRefRect ;;
    when (rect_changed prev nextRefRect) update ;;
    modify (set_prevRefRect (Some nextRefRect)) ;;
    id <- requestAnimationFrame ;;
    modify (set_frameId (Some id)) ;;
    io <- gets intersectionObserver ;;
    optional_method io IntersectionObserver_disconnect ;;
    modify (set_intersectionObserver None)
  end.

Definition frameLoop : M unit :=
  match reference with
  | Element el =>
    o <- new_IntersectionObserver ;;
    modify (set_intersectionObserver (Some o)) ;;
    io <- gets intersectionObserver ;;
    method io (IntersectionObserver_observe el)
  | VirtualElement _ =>
    emit ESampleRect ;;
    nextRefRect <- getBoundingClientRect ;;
    prev <- gets prevRefRect ;;
    when (rect_changed prev nextRefRect) update ;;
    modify (set_prevRefRect (Some nextRefRect)) ;;
    id <- requestAnimationFrame ;;
    modify (set_frameId (Some id))
  end.

(** The callback given to [new ResizeObserver]. *)
Definition resizeCallback : M unit :=
  i <- gets initialUpdate ;;
  when (negb i) update ;;
  modify (set_initialUpdate false).

Definition autoUpdate : M (M unit) :=
  anc <- (if ancestorScroll || ancestorResize then
            a1 <- match reference with
                  | Element el => call_getOverflowAncestors el
                  | VirtualElement (Some contextElement) =>
                    call_getOverflowAncestors contextElement
                  | VirtualElement None => ret []
                  end ;;
            a2 <- call_getOverflowAncestors floating ;;
            ret (a1 ++ a2)
          else ret []) ;;
  modify (set_ancestors anc) ;;
  forEach anc (fun ancestor =>
    when ancestorScroll (addEventListener ancestor scroll) ;;
    when ancestorResize (addEventListener ancestor resize)) ;;
  modify (set_resizeObserver None) ;;
  when elementResize (
    modify (set_initialUpdate true) ;;
    modify (set_resizeObserver (Some tt)) ;;
    ro <- gets resizeObserver ;;
    match reference with
    | Element el => when (negb animationFrame) (method ro (ResizeObserver_observe el))
    | VirtualElement _ => ret tt
    end ;;
    match reference with
    | VirtualElement (Some contextElement) =>
      when (negb animationFrame) (method ro (ResizeObserver_observe contextElement))
    | _ => ret tt
    end ;;
    method ro (ResizeObserver_observe floating)) ;;
  modify (set_frameId None) ;;
  modify (set_intersectionObserver None) ;;
  modify (set_prevRefRect None) ;;
  when animationFrame frameLoop ;;
  update ;;
  modify (set_stop_returned true) ;;
  ret stop.

(** ** Events of the host *)

Inductive Event :=
| EvDispatch (n : Node) (t : EventType)     (* [n] scrolls or is resized *)
| EvResizeObserver (entries : list Node)    (* the ResizeObserver reports *)
| EvIntersection (o : nat) (entries : list DOMRect)
| EvAnimationFrame (id : nat)
| EvLayout (r : DOMRect)                    (* the reference moves *)
| EvStop.                                   (* the caller calls the disposer *)

(** What the host runs at an event.  A callback runs only while it is
    registered. *)
Definition handle (e : Event) : M unit :=
  match e with
  | EvDispatch n t =>
    ls <- gets listeners ;;
    when (bool_decide ((n, t) ∈ ls)) update
  | EvResizeObserver _ =>
    ts <- gets ro_targets ;;
    when (negb (bool_decide (ts = []))) resizeCallback
  | EvIntersection o entries =>
    ts <- gets io_targets ;;
    when (bool_decide (o ∈ ts.*1)) (intersectionCallback entries)
  | EvAnimationFrame id =>
    ps <- gets raf_pending ;;
    when (bool_decide (id ∈ ps)) (
      modify (fun w => set_raf_pending (filter (λ i, i ≠ id) (raf_pending w)) w) ;;
      frameLoop)
  | EvLayout r => modify (set_ref_rect r)
  | EvStop => stop
  end.

(** An exception in a callback is reported and the host goes on. *)
Definition step (w : World) (e : Event) : World := (handle e w).2.

Definition run (w : World) (es : list Event) : World := foldl step w es.

(** The world in which [autoUpdate] returns. *)
Definition setup (r : DOMRect) : World := (autoUpdate (init r)).2.

(** ** The disposer and [update] as functions on worlds

    [stop] and [update] never raise, so each is a function from worlds to
    worlds; [stop_eq] and [update_eq] below prove that these are the ones. *)

Definition log (tr : list Effect) (w : World) : World :=
  set_trace (trace w ++ tr) w.

Definition unlisten (ls : list (Node * EventType)) (a : Node) :=
  let ls := if ancestorScroll then filter (λ l, l ≠ (a, scroll)) ls else ls in
  if ancestorResize then filter (λ l, l ≠ (a, resize)) ls else ls.

Definition unlisten_effects (a : Node) : list Effect :=
  (if ancestorScroll then [ERemoveEventListener a scroll] else []) ++
  (if ancestorResize then [ERemoveEventListener a resize] else []).

Definition stopped (w : World) : World :=
  mkWorld (ancestors w) (initialUpdate w) None (frameId w) None (prevRefRect w)
    (foldl unlisten (listeners w) (ancestors w))
    (match resizeObserver w with Some _ => [] | None => ro_targets w end)
    (match intersectionObserver w with
     | Some o => filter (λ p, p.1 ≠ o) (io_targets w)
     | None => io_targets w
     end)
    (io_created w)
    (match frameId w with
     | Some (S _ as id) => filter (λ i, i ≠ id) (raf_pending w)
     | _ => raf_pending w
     end)
    (raf_counter w) (ref_rect w) (stop_returned w)
    (trace w ++ EStop :: flat_map unlisten_effects (ancestors w)
       ++ match resizeObserver w with Some _ => [EResizeDisconnect] | None => [] end
       ++ match intersectionObserver w with
          | Some o => [EIntersectionDisconnect o]
          | None => []
          end
       ++ match frameId w with
          | Some (S _ as id) => [ECancelAnimationFrame id]
          | _ => []
          end).

Definition updated (w : World) : World :=
  let w1 := log [EUpdate] w in
  if stops_on (updates w) && stop_returned w then stopped w1 else w1.

(** [frameId = requestAnimationFrame(frameLoop)] *)
Definition requested (w : World) : World :=
  let id := S (raf_counter w) in
  set_frameId (Some id)
    (set_raf_pending (raf_pending w ++ [id])
       (set_raf_counter id (log [ERequestAnimationFrame id] w))).

(** Sample, compare and store, the first three steps of the poller. *)
Definition sampled (nextRefRect : DOMRect) (w : World) : World :=
  let w1 := log [ESampleRect] w in
  set_prevRefRect (Some nextRefRect)
    (if rect_changed (prevRefRect w) nextRefRect then updated w1 else w1).

(** [intersectionObserver?.disconnect(); intersectionObserver = null] *)
Definition disconnected (w : World) : World :=
  set_intersectionObserver None
    match intersectionObserver w with
    | Some o =>
      set_io_targets (filter (λ p, p.1 ≠ o) (io_targets w))
        (log [EIntersectionDisconnect o] w)
    | None => w
    end.

(** [intersectionObserver = new IntersectionObserver(...)] and
    [intersectionObserver.observe(reference)] *)
Definition observing (el : Node) (w : World) : World :=
  let o := io_created w in
  set_io_targets (io_targets w ++ [(o, el)])
    (log [EIntersectionObserve o el]
       (set_intersectionObserver (Some o) (set_io_created (S o) w))).

(** The listeners that [forEach] of [autoUpdate] leaves, and its effects. *)
Definition listen_to (p : Node * EventType) (ls : list (Node * EventType)) :=
  if decide (p ∈ ls) then ls else ls ++ [p].

Definition listen (ls : list (Node * EventType)) (a : Node) :=
  let ls := if ancestorScroll then listen_to (a, scroll) ls else ls in
  if ancestorResize then listen_to (a, resize) ls else ls.

Definition listen_effects (a : Node) : list Effect :=
  (if ancestorScroll then [EAddEventListener a scroll] else []) ++
  (if ancestorResize then [EAddEventListener a resize] else []).

(** The world in which [autoUpdate] returns, piece by piece. *)
Definition reference_element : option Node :=
  match reference with
  | Element el => Some el
  | VirtualElement contextElement => contextElement
  end.

Definition discovered : list Node :=
  if ancestorScroll || ancestorResize then
    match reference_element with Some el => getOverflowAncestors el | None => [] end
    ++ getOverflowAncestors floating
  else [].

Definition discovery_effects : list Effect :=
  if ancestorScroll || ancestorResize then
    match reference_element with Some el => [EGetOverflowAncestors el] | None => [] end
    ++ [EGetOverflowAncestors floating]
  else [].

Definition observed : list Node :=
  if elementResize then
    (if animationFrame then []
     else match reference_element with Some el => [el] | None => [] end)
    ++ [floating]
  else [].

Definition observe (ts : list Node) (n : Node) : list Node :=
  if decide (n ∈ ts) then ts else ts ++ [n].

Definition wired (r : DOMRect) : World :=
  mkWorld discovered true (if elementResize then Some tt else None) None None None
    (foldl listen [] discovered) (foldl observe [] observed) [] 0 [] 0 r false
    (discovery_effects ++ flat_map listen_effects discovered
       ++ map EResizeObserve observed).

Definition polling (w : World) : World :=
  if animationFrame then
    match reference with
    | Element el => observing el w
    | VirtualElement _ => requested (sampled (ref_rect w) w)
    end
  else w.

Definition returned (r : DOMRect) : World :=
  set_stop_returned true (log [EUpdate] (polling (wired r))).

(** Which of its two flags lets [autoUpdate] listen for an event type. *)
Definition flag (t : EventType) : bool :=
  match t with scroll => ancestorScroll | resize => ancestorResize end.

(** ** Invariant of the worlds that a setup can reach *)

Record Inv (w : World) : Prop := {
  inv_frame : ∀ id, id ∈ raf_pending w → frameId w = Some id ∧ id ≠ 0;
  inv_io : ∀ p, p ∈ io_targets w → intersectionObserver w = Some p.1;
  inv_excl : io_targets w ≠ [] → raf_pending w = [];
  inv_ro : ro_targets w ≠ [] → resizeObserver w = Some tt;
  inv_listeners : ∀ n t, (n, t) ∈ listeners w → n ∈ ancestors w ∧ flag t = true
}.

(** Nothing of the setup is registered with the host any more. *)
Definition Quiescent (w : World) : Prop :=
  listeners w = [] ∧ ro_targets w = [] ∧ io_targets w = [] ∧ raf_pending w = [].

(** What can still happen once [autoUpdate] has returned: nothing is
    discovered, listened to or observed by the ResizeObserver any more, and
    listeners are removed only from the ancestors, for the active flags. *)
Definition later_effect (anc : list Node) (e : Effect) : Prop :=
  match e with
  | EGetOverflowAncestors _ | EAddEventListener _ _ | EResizeObserve _ => False
  | ERemoveEventListener n t => n ∈ anc ∧ flag t = true
  | _ => True
  end.

Definition extends (w w' : World) : Prop :=
  ancestors w' = ancestors w ∧
  ∃ tr, trace w' = trace w ++ tr ∧ Forall (later_effect (ancestors w)) tr.

(** The change that the poller is specified to detect: there is a previous
    snapshot, and one of x, y, width, height of the new sample is [!==] to
    the one of the snapshot. *)
Definition snapshot_differs (prev : option DOMRect) (next : DOMRect) : Prop :=
  ∃ p, prev = Some p ∧
    (strict_ne (Rect.x next) (Rect.x p) = true ∨
     strict_ne (Rect.y next) (Rect.y p) = true ∨
     strict_ne (Rect.width next) (Rect.width p) = true ∨
     strict_ne (Rect.height next) (Rect.height p) = true).

(** A rectangle of which no field is [!==] to itself: none is NaN. *)
Definition self_equal (r : DOMRect) : Prop :=
  strict_ne (Rect.x r) (Rect.x r) = false ∧
  strict_ne (Rect.y r) (Rect.y r) = false ∧
  strict_ne (Rect.width r) (Rect.width r) = false ∧
  strict_ne (Rect.height r) (Rect.height r) = false.

(** One iteration of the poller, from [w] to [w'] with sample [next], calls
    [update] once if the snapshot differs and not at all otherwise: not at
    the first sample, and not at a sample that is the snapshot again, unless
    a field of it is NaN, in which case it does.  The iteration leaves the
    sample as the snapshot. *)
Definition updates_iff_changed (w w' : World) (next : DOMRect) : Prop :=
  (snapshot_differs (prevRefRect w) next → updates w' = S (updates w)) ∧
  (¬ snapshot_differs (prevRefRect w) next → updates w' = updates w) ∧
  (prevRefRect w = None → updates w' = updates w) ∧
  (prevRefRect w = Some next → self_equal next → updates w' = updates w) ∧
  (prevRefRect w = Some next → ¬ self_equal next → updates w' = S (updates w)) ∧
  prevRefRect w' = Some next.

(** One iteration of the poller, from [w] to [w'], ends by requesting the
    next frame: the request is pending in [w'], [frameId] holds it, and
    after it the iteration only disconnects its one-shot trigger. *)
Definition requests_next_frame (w w' : World) : Prop :=
  let id := S (raf_counter w) in
  id ∈ raf_pending w' ∧ frameId w' = Some id ∧
  ∃ tr tl, trace w' = trace w ++ tr ++ ERequestAnimationFrame id :: tl ∧
           (tl = [] ∨ ∃ o, tl = [EIntersectionDisconnect o]).

(** The events that run an iteration of the poller. *)
Definition poller_event (e : Event) : bool :=
  match e with
  | EvIntersection _ _ | EvAnimationFrame _ => true
  | _ => false
  end.

(** The events at which the host runs the callback of the ResizeObserver. *)
Definition resize_firing (e : Event) : bool :=
  match e with EvResizeObserver _ => true | _ => false end.

(** The effects that concern the ancestors. *)
Definition ancestor_effect (e : Effect) : bool :=
  match e with
  | EGetOverflowAncestors _ | EAddEventListener _ _ | ERemoveEventListener _ _ => true
  | _ => false
  end.

(** The event in which the node and the type of [d] are dispatched. *)
Definition dispatch (d : Node * EventType) : Event := EvDispatch d.1 d.2.

(** What the poller holds in the host: frame requests and triggers. *)
Definition poller_handles (w : World) : nat :=
  length (raf_pending w) + length (io_targets w).

(** The effects of the poller. *)
Definition poller_effect (e : Effect) : bool :=
  match e with
  | ESampleRect | ERequestAnimationFrame _ | ECancelAnimationFrame _
  | EIntersectionObserve _ _ | EIntersectionDisconnect _ => true
  | _ => false
  end.

(** The poller has never run: nothing is requested or connected, the
    variables of the poller are still null, and the trace has none of its
    effects. *)
Definition never_polled (w : World) : Prop :=
  raf_pending w = [] ∧ io_targets w = [] ∧ frameId w = None ∧
  intersectionObserver w = None ∧ prevRefRect w = None ∧
  Forall (λ e, poller_effect e = false) (trace w).

(** The changes in a sequence of samples, each compared with the one
    before it as the poller compares them; [prev] is the snapshot before the
    first. *)
Fixpoint changes (prev : option DOMRect) (rs : list DOMRect) : nat :=
  match rs with
  | [] => 0
  | r :: rs' => (if rect_changed prev r then 1 else 0) + changes (Some r) rs'
  end.

(** The host runs the frames [id], [id + 1], ... of the poller for a
    virtual reference, which is at the rectangles [rs] in these frames. *)
Fixpoint frames (id : nat) (rs : list DOMRect) : list Event :=
  match rs with
  | [] => []
  | r :: rs' => EvLayout r :: EvAnimationFrame id :: frames (S id) rs'
  end.

(** The host runs the iterations [k], [k + 1], ... of the poller for an
    element: the trigger [k] delivers one entry, then the frame that its
    callback has requested runs and installs the next trigger. *)
Fixpoint ticks (k : nat) (rs : list DOMRect) : list Event :=
  match rs with
  | [] => []
  | r :: rs' => EvIntersection k [r] :: EvAnimationFrame (S k) :: ticks (S k) rs'
  end.

(** The listener that an effect adds, and the one that it removes. *)
Definition listened (e : Effect) : option (Node * EventType) :=
  match e with EAddEventListener n t => Some (n, t) | _ => None end.

Definition unlistened (e : Effect) : option (Node * EventType) :=
  match e with ERemoveEventListener n t => Some (n, t) | _ => None end.

(** * Proofs *)

(** Run monadic code on a world given by its fields: unfold the monad, the
    host and the assignments, and nothing else. *)
Ltac wsimpl :=
  cbv beta iota zeta delta
    [bind ret gets modify emit throw when method optional_method
     addEventListener removeEventListener
     ResizeObserver_observe ResizeObserver_disconnect
     new_IntersectionObserver IntersectionObserver_observe
     IntersectionObserver_disconnect
     requestAnimationFrame cancelAnimationFrame getBoundingClientRect
     set_ancestors set_initialUpdate set_resizeObserver
     set_frameId set_intersectionObserver set_prevRefRect
     set_listeners set_ro_targets set_io_targets set_io_created
     set_raf_pending set_raf_counter set_ref_rect set_stop_returned
     set_trace log updates stops
     ancestors initialUpdate resizeObserver frameId intersectionObserver
     prevRefRect listeners ro_targets io_targets io_created raf_pending
     raf_counter ref_rect stop_returned trace].

Ltac wsimpl_all :=
  cbv beta iota zeta delta
    [set_ancestors set_initialUpdate set_resizeObserver
     set_frameId set_intersectionObserver set_prevRefRect
     set_listeners set_ro_targets set_io_targets set_io_created
     set_raf_pending set_raf_counter set_ref_rect set_stop_returned
     set_trace log updates stops
     ancestors initialUpdate resizeObserver frameId intersectionObserver
     prevRefRect listeners ro_targets io_targets io_created raf_pending
     raf_counter ref_rect stop_returned trace] in *.

(** Case analysis on what the code branches on, computing in between. *)
Ltac crunch :=
  unfold observing, disconnected, requested, sampled, updated, stopped;
  repeat match goal with w : World |- _ => destruct w end;
  wsimpl_all;
  repeat (first
    [ match goal with |- context [rect_changed ?a ?b] => destruct (rect_changed a b) end
    | match goal with |- context [stops_on ?k && ?b] => destruct (stops_on k && b) end
    | match goal with |- context [match ?x with _ => _ end] => is_var x; destruct x end ];
    wsimpl_all).

(** ** Counting in traces *)

Lemma count_updates_app tr1 tr2 :
  count_updates (tr1 ++ tr2) = count_updates tr1 + count_updates tr2.
Proof. unfold count_updates. by rewrite List.filter_app, length_app. Qed.

Lemma count_updates_cons e tr :
  count_updates (e :: tr) = (if is_update e then 1 else 0) + count_updates tr.
Proof. unfold count_updates. cbn. by destruct (is_update e). Qed.

Lemma count_stops_cons e tr :
  count_stops (e :: tr) = (if is_stop e then 1 else 0) + count_stops tr.
Proof. unfold count_stops. cbn. by destruct (is_stop e). Qed.

Lemma count_stops_app tr1 tr2 :
  count_stops (tr1 ++ tr2) = count_stops tr1 + count_stops tr2.
Proof. unfold count_stops. by rewrite List.filter_app, length_app. Qed.

Lemma count_updates_unlisten anc :
  count_updates (flat_map unlisten_effects anc) = 0.
Proof.
  induction anc as [|a anc IH]; [done|]. simpl.
  rewrite count_updates_app, IH. unfold unlisten_effects.
  by destruct ancestorScroll, ancestorResize.
Qed.

Lemma count_updates_listen anc :
  count_updates (flat_map listen_effects anc) = 0.
Proof.
  induction anc as [|a anc IH]; [done|]. simpl.
  rewrite count_updates_app, IH. unfold listen_effects.
  by destruct ancestorScroll, ancestorResize.
Qed.

(** ** The equations of [stop] and [update] *)

Lemma remove_step a w :
  (when ancestorScroll (removeEventListener a scroll) ;;
   when ancestorResize (removeEventListener a resize)) w
  = (Some tt, set_trace (trace w ++ unlisten_effects a)
                (set_listeners (unlisten (listeners w) a) w)).
Proof.
  unfold unlisten, unlisten_effects. destruct w.
  destruct ancestorScroll, ancestorResize; wsimpl;
    by rewrite <- ?app_assoc, ?app_nil_r.
Qed.

Lemma forEach_remove anc w :
  forEach anc (fun ancestor =>
    when ancestorScroll (removeEventListener ancestor scroll) ;;
    when ancestorResize (removeEventListener ancestor resize)) w
  = (Some tt, set_trace (trace w ++ flat_map unlisten_effects anc)
                (set_listeners (foldl unlisten (listeners w) anc) w)).
Proof.
  revert w. induction anc as [|a anc IH]; intros w.
  - destruct w. wsimpl. by rewrite app_nil_r.
  - cbn [forEach flat_map foldl]. unfold bind at 1.
    rewrite remove_step, IH. destruct w. wsimpl.
    by rewrite <- app_assoc.
Qed.

Lemma stop_eq w : stop w = (Some tt, stopped w).
Proof.
  unfold stop. unfold bind at 1. cbn [emit modify].
  unfold bind at 1. cbn [gets]. unfold bind at 1.
  rewrite forEach_remove.
  destruct w as [anc iu ro fid io prev ls rts its ioc pend cnt rr sr tr].
  unfold stopped.
  destruct ro as [[]|], io as [o|], fid as [[|id]|]; wsimpl;
    by rewrite <- ?app_assoc, ?app_nil_r.
Qed.

Lemma update_eq w : update w = (Some tt, updated w).
Proof.
  unfold update, updated. destruct w. wsimpl.
  destruct (stops_on _ && _); [apply stop_eq|done].
Qed.

Lemma intersectionCallback_eq r rest w :
  intersectionCallback (r :: rest) w
  = (Some tt, disconnected (requested (sampled r w))).
Proof.
  unfold intersectionCallback, sampled, requested, disconnected.
  destruct w as [? ? ? ? io ? ? ? ? ? ? ? ? ? ?]. wsimpl.
  destruct (rect_changed _ r).
  - rewrite update_eq.
    match goal with |- context [updated ?w] => generalize (updated w) end.
    intros [? ? ? ? [o|] ? ? ? ? ? ? ? ? ? ?]; by wsimpl.
  - destruct io; by wsimpl.
Qed.

Lemma frameLoop_virtual_eq c w :
  reference = VirtualElement c →
  frameLoop w = (Some tt, requested (sampled (ref_rect w) w)).
Proof.
  intros H. unfold frameLoop, sampled, requested. rewrite H.
  destruct w. wsimpl.
  destruct (rect_changed _ _); [rewrite update_eq|];
    match goal with |- context [updated ?w] => generalize (updated w) | _ => idtac end;
    try intros [? ? ? ? ? ? ? ? ? ? ? ? ? ? ?]; by wsimpl.
Qed.

Lemma frameLoop_element_eq el w :
  reference = Element el →
  frameLoop w = (Some tt, observing el w).
Proof. intros H. unfold frameLoop, observing. rewrite H. destruct w. by wsimpl. Qed.

Lemma resizeCallback_eq w :
  resizeCallback w
  = (Some tt, set_initialUpdate false (if initialUpdate w then w else updated w)).
Proof.
  unfold resizeCallback. destruct w as [? [] ? ? ? ? ? ? ? ? ? ? ? ? ?]; wsimpl; [done|].
  rewrite update_eq. by destruct (updated _).
Qed.

(** ** The equation of [autoUpdate] *)

Lemma add_step a w :
  (when ancestorScroll (addEventListener a scroll) ;;
   when ancestorResize (addEventListener a resize)) w
  = (Some tt, set_trace (trace w ++ listen_effects a)
                (set_listeners (listen (listeners w) a) w)).
Proof.
  unfold listen, listen_effects, listen_to. destruct w.
  destruct ancestorScroll, ancestorResize; wsimpl;
    repeat case_decide; wsimpl; by rewrite <- ?app_assoc, ?app_nil_r.
Qed.

Lemma forEach_add anc w :
  forEach anc (fun ancestor =>
    when ancestorScroll (addEventListener ancestor scroll) ;;
    when ancestorResize (addEventListener ancestor resize)) w
  = (Some tt, set_trace (trace w ++ flat_map listen_effects anc)
                (set_listeners (foldl listen (listeners w) anc) w)).
Proof.
  revert w. induction anc as [|a anc IH]; intros w.
  - destruct w. wsimpl. by rewrite app_nil_r.
  - cbn [forEach flat_map foldl]. unfold bind at 1.
    rewrite add_step, IH. destruct w. wsimpl.
    by rewrite <- app_assoc.
Qed.

Lemma updated_not_returned w :
  stop_returned w = false → updated w = log [EUpdate] w.
Proof. unfold updated. intros ->. by rewrite andb_false_r. Qed.

Lemma autoUpdate_eq r : autoUpdate (init r) = (Some stop, returned r).
Proof.
  unfold autoUpdate, returned, polling, wired, discovered, discovery_effects,
    observed, reference_element, init, call_getOverflowAncestors.
  destruct (ancestorScroll || ancestorResize);
    destruct reference as [el|[c|]] eqn:Href; wsimpl;
    rewrite forEach_add; wsimpl;
    destruct elementResize; wsimpl;
    destruct animationFrame; cbn [negb foldl app map]; unfold observe; wsimpl;
    repeat (case_decide; wsimpl);
    rewrite ?(frameLoop_element_eq _ _ Href), ?(frameLoop_virtual_eq _ _ Href);
    unfold observing, requested, sampled; wsimpl;
    rewrite update_eq, updated_not_returned by done; wsimpl.
  all: cbn [app]; rewrite <- ?app_assoc; cbn [app]; done.
Qed.

Lemma setup_eq r : setup r = returned r.
Proof. unfold setup. by rewrite autoUpdate_eq. Qed.

(** ** What the host runs at each event *)

Lemma step_dispatch n t w :
  step w (EvDispatch n t)
  = if bool_decide ((n, t) ∈ listeners w) then updated w else w.
Proof.
  unfold step, handle. destruct w. wsimpl.
  case_bool_decide; [by rewrite update_eq|done].
Qed.

Lemma step_resizeObserver entries w :
  step w (EvResizeObserver entries)
  = if bool_decide (ro_targets w = []) then w
    else set_initialUpdate false (if initialUpdate w then w else updated w).
Proof.
  unfold step, handle. unfold bind, gets.
  case_bool_decide; cbn [negb when]; [done|].
  by rewrite resizeCallback_eq.
Qed.

Lemma step_intersection o entries w :
  step w (EvIntersection o entries)
  = if bool_decide (o ∈ (io_targets w).*1) then
      match entries with
      | [] => w
      | r :: _ => disconnected (requested (sampled r w))
      end
    else w.
Proof.
  unfold step, handle. unfold bind, gets.
  case_bool_decide; cbn [when]; [|done].
  destruct entries; [done|]. by rewrite intersectionCallback_eq.
Qed.

Lemma step_animationFrame id w :
  step w (EvAnimationFrame id)
  = if bool_decide (id ∈ raf_pending w) then
      let w' := set_raf_pending (filter (λ i, i ≠ id) (raf_pending w)) w in
      match reference with
      | Element el => observing el w'
      | VirtualElement _ => requested (sampled (ref_rect w') w')
      end
    else w.
Proof.
  unfold step, handle. unfold bind at 1. unfold gets.
  case_bool_decide; cbn [when]; [|done].
  unfold bind, modify. cbn zeta.
  destruct reference as [el|c] eqn:Href.
  - by rewrite (frameLoop_element_eq el _ Href).
  - by rewrite (frameLoop_virtual_eq c _ Href).
Qed.

Lemma step_layout r w : step w (EvLayout r) = set_ref_rect r w.
Proof. done. Qed.

Lemma step_stop w : step w EvStop = stopped w.
Proof. unfold step, handle. by rewrite stop_eq. Qed.

(** No callback and no call of the disposer raises. *)
Lemma handle_returns e w : (handle e w).1 = Some tt.
Proof.
  destruct e as [n t|entries|o entries|id|r|]; unfold handle.
  - unfold bind, gets. case_bool_decide; cbn [when]; [by rewrite update_eq|done].
  - unfold bind, gets. case_bool_decide; cbn [negb when]; [done|].
    by rewrite resizeCallback_eq.
  - unfold bind, gets. case_bool_decide; cbn [when]; [|done].
    destruct entries; [done|]. by rewrite intersectionCallback_eq.
  - unfold bind at 1. unfold gets. case_bool_decide; cbn [when]; [|done].
    unfold bind, modify.
    destruct reference as [el|c] eqn:Href.
    + by rewrite (frameLoop_element_eq el _ Href).
    + by rewrite (frameLoop_virtual_eq c _ Href).
  - done.
  - by rewrite stop_eq.
Qed.

Lemma run_app w es1 es2 : run w (es1 ++ es2) = run (run w es1) es2.
Proof. unfold run. apply foldl_app. Qed.

Lemma run_snoc w es e : run w (es ++ [e]) = step (run w es) e.
Proof. by rewrite run_app. Qed.

(** ** The invariant *)

Lemma Quiescent_Inv w : Quiescent w → Inv w.
Proof.
  intros (Hl & Hr & Hi & Hp). split.
  - intros id. rewrite Hp. by intros ?%elem_of_nil.
  - intros p. rewrite Hi. by intros ?%elem_of_nil.
  - by rewrite Hi.
  - by rewrite Hr.
  - intros n t. rewrite Hl. by intros ?%elem_of_nil.
Qed.

Lemma foldl_unlisten_elem anc ls x :
  x ∈ foldl unlisten ls anc →
  x ∈ ls ∧ ∀ a, a ∈ anc → flag x.2 = true → x.1 ≠ a.
Proof.
  revert ls. induction anc as [|a anc IH]; intros ls; cbn [foldl].
  - intros ?. split; [done|]. by intros a ?%elem_of_nil.
  - intros [Hx Hanc]%IH. unfold unlisten in Hx.
    assert (x ∈ ls ∧ (flag x.2 = true → x.1 ≠ a)) as [Hls Ha].
    { destruct x as [n [|]]; cbn [flag fst snd];
        destruct ancestorScroll, ancestorResize;
        repeat (apply list_elem_of_filter in Hx as [? Hx]);
        split; try done; intros _ ->; congruence. }
    split; [done|]. intros a' [->|?]%elem_of_cons; auto.
Qed.

Lemma foldl_unlisten_nil anc : foldl unlisten [] anc = [].
Proof.
  apply elem_of_nil_inv. intros x [Hx _]%foldl_unlisten_elem.
  by apply elem_of_nil in Hx.
Qed.

(** Once the disposer has run, nothing is registered. *)
Lemma stopped_quiescent w : Inv w → Quiescent (stopped w).
Proof.
  intros [Hf Hi He Hr Hl].
  destruct w as [anc iu ro fid io prev ls rts its ioc pend cnt rr sr tr].
  unfold stopped, Quiescent. wsimpl_all. repeat split.
  - apply elem_of_nil_inv. intros [n t] [Hx Hanc]%foldl_unlisten_elem.
    destruct (Hl n t Hx) as [Hn Ht]. by apply (Hanc n).
  - destruct ro; [done|]. destruct rts; [done|]. by discriminate Hr.
  - apply elem_of_nil_inv. intros p Hp. destruct io as [o|].
    + apply list_elem_of_filter in Hp as [Hne Hp].
      apply Hi in Hp. congruence.
    + by apply Hi in Hp.
  - apply elem_of_nil_inv. intros id Hid.
    destruct fid as [[|id']|].
    + destruct (Hf id Hid) as [? ?]. congruence.
    + apply list_elem_of_filter in Hid as [Hne Hid].
      destruct (Hf id Hid) as [? ?]. congruence.
    + by destruct (Hf id Hid).
Qed.

(** Calling the disposer when nothing is registered leaves it so. *)
Lemma stopped_quiescent_again w : Quiescent w → Quiescent (stopped w).
Proof. intros H. by apply stopped_quiescent, Quiescent_Inv. Qed.

Lemma Inv_stopped w : Inv w → Inv (stopped w).
Proof. intros H. by apply Quiescent_Inv, stopped_quiescent. Qed.

Lemma Inv_log tr w : Inv w → Inv (log tr w).
Proof. destruct w. intros [? ? ? ? ?]. by split. Qed.

Lemma Inv_updated w : Inv w → Inv (updated w).
Proof.
  intros H. unfold updated.
  destruct (stops_on _ && _); [apply Inv_stopped|]; by apply Inv_log.
Qed.

Lemma Quiescent_updated w : Quiescent w → Quiescent (updated w).
Proof.
  intros H. unfold updated.
  destruct (stops_on _ && _); [apply stopped_quiescent_again|]; by destruct w.
Qed.

(** [update] registers nothing. *)
Lemma updated_pending_nil w : raf_pending w = [] → raf_pending (updated w) = [].
Proof.
  unfold updated, stopped. destruct w as [? ? ? [[|?]|] ? ? ? ? ? ? ? ? ? ? ?].
  all: wsimpl_all; intros ->; by destruct (stops_on _ && _).
Qed.

Lemma updated_io_nil w : io_targets w = [] → io_targets (updated w) = [].
Proof.
  unfold updated, stopped. destruct w as [? ? ? ? [?|] ? ? ? ? ? ? ? ? ? ?].
  all: wsimpl_all; intros ->; by destruct (stops_on _ && _).
Qed.

Lemma Inv_sampled r w : Inv w → Inv (sampled r w).
Proof.
  intros H. unfold sampled.
  assert (∀ w', Inv w' → Inv (set_prevRefRect (Some r) w')) as Hset.
  { intros w' [? ? ? ? ?]. destruct w'. by split. }
  apply Hset. destruct (rect_changed _ _); [apply Inv_updated|]; by apply Inv_log.
Qed.

Lemma sampled_pending_nil r w : raf_pending w = [] → raf_pending (sampled r w) = [].
Proof.
  intros H. unfold sampled.
  assert (raf_pending (log [ESampleRect] w) = []) as H1 by (by destruct w).
  destruct (rect_changed _ _); [apply updated_pending_nil in H1|];
    by destruct (updated _) || destruct w.
Qed.

Lemma sampled_io_nil r w : io_targets w = [] → io_targets (sampled r w) = [].
Proof.
  intros H. unfold sampled.
  assert (io_targets (log [ESampleRect] w) = []) as H1 by (by destruct w).
  destruct (rect_changed _ _); [apply updated_io_nil in H1|];
    by destruct (updated _) || destruct w.
Qed.

Lemma Inv_requested w :
  Inv w → raf_pending w = [] → io_targets w = [] → Inv (requested w).
Proof.
  intros [Hf Hi He Hr Hl]. unfold requested. destruct w. wsimpl_all.
  intros -> ->. split; wsimpl; try done.
  all: try (intros id ->%list_elem_of_singleton; done).
  all: try (by intros p ?%elem_of_nil).
Qed.

Lemma Inv_disconnected_requested w :
  Inv w → raf_pending w = [] → Inv (disconnected (requested w)).
Proof.
  intros [Hf Hi He Hr Hl]. unfold requested, disconnected.
  destruct w as [anc iu ro fid io prev ls rts its ioc pend cnt rr sr tr].
  wsimpl_all. intros ->.
  assert (match io with
          | Some o => filter (λ p : nat * Node, p.1 ≠ o) its
          | None => its
          end = []) as Hnil.
  { apply elem_of_nil_inv. intros p Hp. destruct io as [o|].
    - apply list_elem_of_filter in Hp as [Hne Hp]. apply Hi in Hp. congruence.
    - by apply Hi in Hp. }
  destruct io as [o|]; wsimpl; split; wsimpl; try done.
  all: try (intros id ->%list_elem_of_singleton; done).
  all: try (rewrite Hnil; by intros p ?%elem_of_nil).
  all: by rewrite Hnil.
Qed.

Lemma Inv_observing el w :
  Inv w → raf_pending w = [] → io_targets w = [] → Inv (observing el w).
Proof.
  intros [Hf Hi He Hr Hl]. unfold observing. destruct w. wsimpl_all.
  intros -> ->. split; wsimpl; try done.
  all: try (by intros id ?%elem_of_nil).
  all: try (by intros p ->%list_elem_of_singleton).
Qed.

(** Every event keeps the invariant. *)
Lemma step_Inv w e : Inv w → Inv (step w e).
Proof.
  intros H. destruct e as [n t|entries|o entries|id|r|].
  - rewrite step_dispatch. case_bool_decide; [by apply Inv_updated|done].
  - rewrite step_resizeObserver. case_bool_decide; [done|].
    assert (∀ w', Inv w' → Inv (set_initialUpdate false w')) as Hset.
    { intros w' [? ? ? ? ?]. destruct w'. by split. }
    apply Hset. destruct (initialUpdate w); [done|by apply Inv_updated].
  - rewrite step_intersection. case_bool_decide as Ho; [|done].
    destruct entries as [|r rest]; [done|].
    apply Inv_disconnected_requested; [by apply Inv_sampled|].
    apply sampled_pending_nil, (inv_excl _ H).
    intros Hnil. rewrite Hnil in Ho. by apply elem_of_nil in Ho.
  - rewrite step_animationFrame. case_bool_decide as Hid; [|done]. cbn zeta.
    destruct H as [Hf Hi He Hr Hl].
    assert (filter (λ i, i ≠ id) (raf_pending w) = []) as Hnil.
    { apply elem_of_nil_inv. intros i [Hne Hin]%list_elem_of_filter.
      destruct (Hf i Hin), (Hf id Hid). congruence. }
    assert (io_targets w = []) as Hio.
    { destruct (io_targets w) as [|p its] eqn:E; [done|].
      rewrite He in Hid by done. by apply elem_of_nil in Hid. }
    set (w' := set_raf_pending _ w).
    assert (Inv w' ∧ raf_pending w' = [] ∧ io_targets w' = []) as (H' & Hp' & Hi').
    { subst w'. destruct w. wsimpl_all. rewrite Hnil.
      split; [split; wsimpl; try done|done].
      by intros ? ?%elem_of_nil. }
    destruct reference.
    + by apply Inv_observing.
    + apply Inv_requested;
        [by apply Inv_sampled|by apply sampled_pending_nil|by apply sampled_io_nil].
  - rewrite step_layout. destruct H. destruct w. by split.
  - rewrite step_stop. by apply Inv_stopped.
Qed.

Lemma run_Inv w es : Inv w → Inv (run w es).
Proof.
  revert w. induction es as [|e es IH]; intros w H; [done|].
  apply IH, step_Inv, H.
Qed.

Lemma foldl_listen_elem anc ls x :
  x ∈ foldl listen ls anc → x ∈ ls ∨ (x.1 ∈ anc ∧ flag x.2 = true).
Proof.
  revert ls. induction anc as [|a anc IH]; intros ls; cbn [foldl]; [auto|].
  intros [Hx|[Hx Hf]]%IH; [|right; split; [by right|done]].
  unfold listen, listen_to in Hx.
  destruct ancestorScroll eqn:Es, ancestorResize eqn:Er;
    repeat case_decide; auto;
    repeat (apply elem_of_app in Hx as [Hx| ->%list_elem_of_singleton]); auto;
    right; (split; [by left|done]).
Qed.

Lemma foldl_observe_nil ts : foldl observe [] ts = [] → ts = [].
Proof.
  destruct ts as [|n ts]; [done|]. cbn [foldl]. unfold observe at 2.
  case_decide as Hn; [by apply elem_of_nil in Hn|]. cbn [app].
  assert (∀ l acc, acc ≠ [] → foldl observe acc l ≠ []) as Hne.
  { induction l as [|m l IH]; intros acc Hacc; [done|]. cbn [foldl].
    apply IH. unfold observe. case_decide; [done|]. by destruct acc. }
  intros H. by apply Hne in H.
Qed.

(** The world in which [autoUpdate] returns satisfies the invariant. *)
Lemma Inv_wired r : Inv (wired r).
Proof.
  unfold wired. split; wsimpl.
  - by intros id ?%elem_of_nil.
  - by intros p ?%elem_of_nil.
  - done.
  - unfold observed. destruct elementResize; [done|]. by cbn.
  - intros n t [Hx|Hx]%foldl_listen_elem; [by apply elem_of_nil in Hx|done].
Qed.

Lemma Inv_setup r : Inv (setup r).
Proof.
  rewrite setup_eq. unfold returned.
  assert (∀ w', Inv w' → Inv (set_stop_returned true w')) as Hset.
  { intros w' [? ? ? ? ?]. destruct w'. by split. }
  apply Hset, Inv_log. unfold polling.
  pose proof (Inv_wired r) as H.
  assert (raf_pending (wired r) = []) as Hp by done.
  assert (io_targets (wired r) = []) as Hi by done.
  destruct animationFrame; [|done]. destruct reference.
  - by apply Inv_observing.
  - apply Inv_requested;
      [by apply Inv_sampled|by apply sampled_pending_nil|by apply sampled_io_nil].
Qed.

(** ** Calls of [update] *)

Ltac count :=
  repeat rewrite ?count_updates_app, ?count_updates_cons, ?count_updates_unlisten;
  change (count_updates []) with 0; cbn [is_update]; try lia.

Lemma updates_stopped w : updates (stopped w) = updates w.
Proof. crunch; count. Qed.

Lemma updates_updated w : updates (updated w) = S (updates w).
Proof. crunch; count. Qed.

Lemma updates_sampled r w :
  updates (sampled r w)
  = if rect_changed (prevRefRect w) r then S (updates w) else updates w.
Proof. crunch; count. Qed.

Lemma updates_requested w : updates (requested w) = updates w.
Proof. crunch; count. Qed.

Lemma updates_disconnected w : updates (disconnected w) = updates w.
Proof. crunch; count. Qed.

Lemma updates_observing el w : updates (observing el w) = updates w.
Proof. crunch; count. Qed.

(** ** After the disposer *)

Lemma step_quiescent w e :
  Quiescent w → Quiescent (step w e) ∧ updates (step w e) = updates w.
Proof.
  intros H. pose proof H as (Hl & Hr & Hi & Hp).
  destruct e as [n t|entries|o entries|id|r|].
  - rewrite step_dispatch, Hl. by rewrite bool_decide_eq_false_2 by apply not_elem_of_nil.
  - rewrite step_resizeObserver, Hr. by rewrite bool_decide_eq_true_2.
  - rewrite step_intersection, Hi. by rewrite bool_decide_eq_false_2 by apply not_elem_of_nil.
  - rewrite step_animationFrame, Hp. by rewrite bool_decide_eq_false_2 by apply not_elem_of_nil.
  - rewrite step_layout. by destruct w.
  - rewrite step_stop. split; [by apply stopped_quiescent_again|apply updates_stopped].
Qed.

Lemma run_quiescent w es :
  Quiescent w → Quiescent (run w es) ∧ updates (run w es) = updates w.
Proof.
  revert w. induction es as [|e es IH]; intros w H; [done|]. cbn.
  destruct (step_quiescent w e H) as [H' <-]. by apply IH.
Qed.

(** ** What events add to the trace *)

Lemma extends_refl w : extends w w.
Proof. split; [done|]. exists []. by rewrite app_nil_r. Qed.

Lemma extends_trans w1 w2 w3 : extends w1 w2 → extends w2 w3 → extends w1 w3.
Proof.
  intros [Ha (tr & Ht & Hf)] [Ha' (tr' & Ht' & Hf')]. split; [congruence|].
  exists (tr ++ tr'). rewrite Ht', Ht, Ha in *. split; [by rewrite app_assoc|].
  by apply Forall_app.
Qed.

Lemma extends_same w w' :
  ancestors w' = ancestors w → trace w' = trace w → extends w w'.
Proof. intros Ha Ht. split; [done|]. exists []. by rewrite app_nil_r. Qed.

Lemma extends_log tr w :
  Forall (later_effect (ancestors w)) tr → extends w (log tr w).
Proof. intros H. destruct w. split; [done|]. by exists tr. Qed.

Lemma later_unlisten anc anc' :
  anc' ⊆ anc → Forall (later_effect anc) (flat_map unlisten_effects anc').
Proof.
  induction anc' as [|a anc' IH]; intros Hsub; [by constructor|]. cbn.
  apply Forall_app. split.
  - assert (a ∈ anc) by (apply Hsub; by left).
    unfold unlisten_effects.
    destruct ancestorScroll eqn:?, ancestorResize eqn:?; repeat constructor; done.
  - apply IH. intros x Hx. apply Hsub. by right.
Qed.

Lemma extends_stopped w : extends w (stopped w).
Proof.
  destruct w as [anc iu ro fid io prev ls rts its ioc pend cnt rr sr tr].
  split; [done|]. eexists. split; [done|]. cbn.
  constructor; [done|]. repeat apply Forall_app_2.
  - by apply later_unlisten.
  - destruct ro; by repeat constructor.
  - destruct io; by repeat constructor.
  - destruct fid as [[|?]|]; by repeat constructor.
Qed.

Lemma extends_updated w : extends w (updated w).
Proof.
  unfold updated.
  assert (extends w (log [EUpdate] w)) as H by (apply extends_log; by repeat constructor).
  destruct (stops_on _ && _); [|done].
  eapply extends_trans; [done|apply extends_stopped].
Qed.

Lemma extends_set_prevRefRect v w : extends w (set_prevRefRect v w).
Proof. apply extends_same; by destruct w. Qed.

Lemma extends_set_initialUpdate v w : extends w (set_initialUpdate v w).
Proof. apply extends_same; by destruct w. Qed.

Lemma extends_sampled r w : extends w (sampled r w).
Proof.
  unfold sampled.
  assert (extends w (log [ESampleRect] w)) as H by (apply extends_log; by repeat constructor).
  eapply extends_trans; [|apply extends_set_prevRefRect].
  destruct (rect_changed _ _); [|done].
  eapply extends_trans; [done|apply extends_updated].
Qed.

Lemma extends_requested w : extends w (requested w).
Proof.
  destruct w. split; [done|]. eexists. split; [done|]. by repeat constructor.
Qed.

Lemma extends_disconnected w : extends w (disconnected w).
Proof.
  destruct w as [? ? ? ? [o|] ? ? ? ? ? ? ? ? ? ?]; (split; [done|]).
  - exists [EIntersectionDisconnect o]. by repeat constructor.
  - exists (@nil Effect). cbn. rewrite app_nil_r. by repeat constructor.
Qed.

Lemma extends_observing el w : extends w (observing el w).
Proof.
  destruct w. split; [done|]. eexists. split; [done|]. by repeat constructor.
Qed.

Lemma step_extends w e : extends w (step w e).
Proof.
  destruct e as [n t|entries|o entries|id|r|].
  - rewrite step_dispatch. case_bool_decide; [apply extends_updated|apply extends_refl].
  - rewrite step_resizeObserver. case_bool_decide; [apply extends_refl|].
    eapply extends_trans; [|apply extends_set_initialUpdate].
    destruct (initialUpdate w); [apply extends_refl|apply extends_updated].
  - rewrite step_intersection. case_bool_decide; [|apply extends_refl].
    destruct entries; [apply extends_refl|].
    eapply extends_trans; [apply extends_sampled|].
    eapply extends_trans; [apply extends_requested|apply extends_disconnected].
  - rewrite step_animationFrame. case_bool_decide; [|apply extends_refl]. cbn zeta.
    set (w' := set_raf_pending _ w).
    assert (extends w w') as Hw' by (apply extends_same; by destruct w).
    eapply extends_trans; [exact Hw'|].
    destruct reference; [apply extends_observing|].
    eapply extends_trans; [apply extends_sampled|apply extends_requested].
  - rewrite step_layout. apply extends_same; by destruct w.
  - rewrite step_stop. apply extends_stopped.
Qed.

Lemma run_extends w es : extends w (run w es).
Proof.
  revert w. induction es as [|e es IH]; intros w; [apply extends_refl|].
  cbn. eapply extends_trans; [apply step_extends|apply IH].
Qed.

(** ** The setup *)

Lemma count_updates_wired r : updates (wired r) = 0.
Proof.
  unfold wired, updates. cbn [trace].
  rewrite !count_updates_app, count_updates_listen.
  unfold discovery_effects, observed.
  destruct (ancestorScroll || ancestorResize), reference_element,
    elementResize, animationFrame; done.
Qed.

Lemma updates_polling r : updates (polling (wired r)) = 0.
Proof.
  unfold polling. destruct animationFrame; [|apply count_updates_wired].
  destruct reference.
  - rewrite updates_observing. apply count_updates_wired.
  - rewrite updates_requested, updates_sampled. cbn [wired prevRefRect rect_changed].
    apply count_updates_wired.
Qed.

Lemma updates_setup r : updates (setup r) = 1.
Proof.
  rewrite setup_eq. unfold returned.
  pose proof (updates_polling r) as H.
  destruct (polling (wired r)). wsimpl_all.
  by rewrite count_updates_app, H.
Qed.

(** C2: whatever the reference, the floating element and the options,
    [autoUpdate] returns normally, with the disposer, and has by then called
    [update] exactly once: the call is the last thing it does, and there is
    none before it. *)
Theorem autoUpdate_calls_update_once r :
  (autoUpdate (init r)).1 = Some stop ∧
  updates (setup r) = 1 ∧
  ∃ tr, trace (setup r) = tr ++ [EUpdate] ∧ count_updates tr = 0.
Proof.
  split; [by rewrite autoUpdate_eq|].
  rewrite setup_eq. unfold returned.
  pose proof (updates_polling r) as H.
  destruct (polling (wired r)) as [? ? ? ? ? ? ? ? ? ? ? ? ? ? tr].
  wsimpl_all. split.
  - rewrite count_updates_app, H. done.
  - by exists tr.
Qed.

(** ** The disposer does not raise *)

(** C9: the disposer returns normally in every world, whichever of the
    ResizeObserver, the IntersectionObserver and the frame request exist,
    and so does any number of calls of it in a row. *)
Theorem stop_never_throws :
  (∀ w, (stop w).1 = Some tt) ∧
  (∀ n w, (forEach (replicate n tt) (λ _, stop) w).1 = Some tt).
Proof.
  split; [intros w; by rewrite stop_eq|].
  induction n as [|n IH]; intros w; [done|].
  cbn [replicate forEach]. unfold bind. rewrite stop_eq. apply IH.
Qed.

(** ** The poller *)

Lemma sampled_counter r w : raf_counter (sampled r w) = raf_counter w.
Proof. by crunch. Qed.

Lemma requests_next_frame_requested w w1 :
  raf_counter w1 = raf_counter w → (∃ tr, trace w1 = trace w ++ tr) →
  requests_next_frame w (requested w1) ∧
  requests_next_frame w (disconnected (requested w1)).
Proof.
  intros Hc [tr Ht]. unfold requests_next_frame, requested, disconnected.
  destruct w1 as [? ? ? ? io ? ? ? ? ? pend ? ? ? ?]. wsimpl_all.
  rewrite Hc, Ht. split.
  - split; [apply elem_of_app; right; by left|]. split; [done|].
    exists tr, []. rewrite <- app_assoc. auto.
  - destruct io as [o|]; wsimpl;
      (split; [apply elem_of_app; right; by left|]); (split; [done|]).
    + exists tr, [EIntersectionDisconnect o]. rewrite <- !app_assoc. eauto.
    + exists tr, []. rewrite <- app_assoc. auto.
Qed.

Lemma requests_next_frame_sampled r w :
  requests_next_frame w (requested (sampled r w)) ∧
  requests_next_frame w (disconnected (requested (sampled r w))).
Proof.
  apply requests_next_frame_requested; [apply sampled_counter|].
  destruct (extends_sampled r w) as [_ (tr & Ht & _)]. eauto.
Qed.

Lemma rect_changed_spec prev next :
  rect_changed prev next = true ↔ snapshot_differs prev next.
Proof.
  unfold rect_changed, snapshot_differs, rect_differs. destruct prev as [p|].
  - rewrite !orb_true_iff. split.
    + intros [[[?|?]|?]|?]; exists p; auto.
    + intros (p' & [= <-] & [?|[?|[?|?]]]); auto.
  - split; [done|]. by intros (p & ? & _).
Qed.

Lemma rect_changed_same next :
  self_equal next → rect_changed (Some next) next = false.
Proof.
  intros (Hx & Hy & Hw & Hh). unfold rect_changed, rect_differs.
  by rewrite Hx, Hy, Hw, Hh.
Qed.

Lemma rect_changed_nan next :
  ¬ self_equal next → rect_changed (Some next) next = true.
Proof.
  unfold self_equal, rect_changed, rect_differs. intros Hn.
  destruct (strict_ne (Rect.x next) _); [done|].
  destruct (strict_ne (Rect.y next) _); [done|].
  destruct (strict_ne (Rect.width next) _); [done|].
  destruct (strict_ne (Rect.height next) _); [done|].
  by destruct Hn.
Qed.

Lemma updates_iff_changed_sampled w w' next :
  updates w' = updates (sampled next w) → prevRefRect w' = Some next →
  updates_iff_changed w w' next.
Proof.
  unfold updates_iff_changed. intros -> ->. rewrite updates_sampled.
  destruct (rect_changed (prevRefRect w) next) eqn:E.
  - pose proof E as E'. apply rect_changed_spec in E'.
    split; [done|]. split; [done|]. split; [|split; [|done]].
    + intros Hnone. destruct E' as (p & Hp & _). congruence.
    + intros Hsame Hself. rewrite Hsame, rect_changed_same in E by done. done.
  - split; [by intros H%rect_changed_spec; congruence|]. split; [done|].
    split; [done|]. split; [done|]. split; [|done].
    intros Hsame Hnan. rewrite Hsame, rect_changed_nan in E by done. done.
Qed.

(** The store of the sample, line 116 and line 137. *)
Lemma prevRefRect_sampled r w : prevRefRect (sampled r w) = Some r.
Proof. unfold sampled. by destruct (if rect_changed _ _ then _ else _). Qed.

Lemma prevRefRect_requested w : prevRefRect (requested w) = prevRefRect w.
Proof. by destruct w. Qed.

Lemma prevRefRect_disconnected w : prevRefRect (disconnected w) = prevRefRect w.
Proof. by crunch. Qed.

Lemma io_created_iteration r w :
  io_created (disconnected (requested (sampled r w))) = io_created w.
Proof. by crunch. Qed.

(** An iteration of the poller on the path of the intersection trigger. *)
Lemma trigger_iteration o next rest w :
  o ∈ (io_targets w).*1 →
  let w' := step w (EvIntersection o (next :: rest)) in
  updates w' = (if rect_changed (prevRefRect w) next then S (updates w)
                else updates w) ∧
  prevRefRect w' = Some next ∧
  S (raf_counter w) ∈ raf_pending w' ∧
  io_created w' = io_created w.
Proof.
  intros Ho. cbn zeta.
  rewrite step_intersection, bool_decide_eq_true_2 by done.
  rewrite updates_disconnected, updates_requested, updates_sampled.
  rewrite prevRefRect_disconnected, prevRefRect_requested, prevRefRect_sampled.
  rewrite io_created_iteration.
  split; [done|]. split; [done|]. split; [|done].
  destruct (requests_next_frame_sampled next w) as [_ (Hin & _)]. exact Hin.
Qed.

(** The frame that follows it installs the next trigger. *)
Lemma frame_installs el id w :
  reference = Element el → id ∈ raf_pending w →
  let w' := step w (EvAnimationFrame id) in
  updates w' = updates w ∧ prevRefRect w' = prevRefRect w ∧
  io_created w ∈ (io_targets w').*1.
Proof.
  intros Href Hid. cbn zeta.
  rewrite step_animationFrame, bool_decide_eq_true_2, Href by done. cbn zeta.
  rewrite updates_observing.
  destruct w as [anc iu ro fid io prev ls rts its ioc pend cnt rr sr tr].
  unfold observing. wsimpl. split; [done|]. split; [done|].
  rewrite fmap_app. apply elem_of_app. right. by left.
Qed.

(** An iteration of the poller on the path of the virtual reference. *)
Lemma virtual_frame c id w :
  reference = VirtualElement c → id ∈ raf_pending w →
  let w' := step w (EvAnimationFrame id) in
  updates w' = (if rect_changed (prevRefRect w) (ref_rect w) then S (updates w)
                else updates w) ∧
  prevRefRect w' = Some (ref_rect w) ∧
  S (raf_counter w) ∈ raf_pending w'.
Proof.
  intros Href Hid. cbn zeta.
  rewrite step_animationFrame, bool_decide_eq_true_2, Href by done. cbn zeta.
  set (w0 := set_raf_pending _ w).
  assert (prevRefRect w0 = prevRefRect w ∧ ref_rect w0 = ref_rect w
          ∧ updates w0 = updates w ∧ raf_counter w0 = raf_counter w)
    as (Hp & Hr & Hu & Hc) by (by destruct w).
  rewrite updates_requested, updates_sampled, prevRefRect_requested,
    prevRefRect_sampled, Hp, Hr, Hu.
  split; [done|]. split; [done|].
  destruct (requests_next_frame_sampled (ref_rect w) w0) as [(Hin & _) _].
  by rewrite Hc in Hin.
Qed.

(** C3, amended: an iteration of the poller calls [update] if and only if
    there is a previous snapshot and x, y, width or height of the new
    sample is [!==] to the one of the snapshot, on the path of the
    intersection trigger and on the path of the virtual reference, as
    callbacks and as the host runs them.  So the first sample does not call
    it; a sample that is the snapshot again does not call it if none of its
    fields is NaN, and calls it if one is.  The iteration stores its sample
    as the snapshot, so that in two iterations that follow each other
    [update] is called in the second exactly if its sample differs from
    the sample of the first. *)
Theorem poller_updates_iff_changed w :
  (∀ next rest,
     updates_iff_changed w (intersectionCallback (next :: rest) w).2 next) ∧
  (∀ o next rest, o ∈ (io_targets w).*1 →
     updates_iff_changed w (step w (EvIntersection o (next :: rest))) next) ∧
  (isElement reference = false →
     updates_iff_changed w (frameLoop w).2 (ref_rect w)) ∧
  (∀ id, isElement reference = false → id ∈ raf_pending w →
     updates_iff_changed w (step w (EvAnimationFrame id)) (ref_rect w)) ∧
  (∀ o r1 rest1 r2 rest2, isElement reference = true → o ∈ (io_targets w).*1 →
     let w1 := step w (EvIntersection o (r1 :: rest1)) in
     let w2 := step w1 (EvAnimationFrame (S (raf_counter w))) in
     let w3 := step w2 (EvIntersection (io_created w) (r2 :: rest2)) in
     updates w3 = if rect_differs r2 r1 then S (updates w1) else updates w1) ∧
  (∀ id r2, isElement reference = false → id ∈ raf_pending w →
     let w1 := step w (EvAnimationFrame id) in
     let w2 := step (step w1 (EvLayout r2)) (EvAnimationFrame (S (raf_counter w))) in
     updates w2 = if rect_differs r2 (ref_rect w) then S (updates w1)
                  else updates w1).
Proof.
  split; [|split; [|split; [|split; [|split]]]].
  - intros next rest. rewrite intersectionCallback_eq. cbn [snd].
    apply updates_iff_changed_sampled.
    + by rewrite updates_disconnected, updates_requested.
    + by rewrite prevRefRect_disconnected, prevRefRect_requested,
        prevRefRect_sampled.
  - intros o next rest Ho.
    destruct (trigger_iteration o next rest w Ho) as (Hu & Hp & _).
    apply updates_iff_changed_sampled; [|done]. by rewrite Hu, updates_sampled.
  - intros Hv. destruct reference as [|c] eqn:Href; [done|].
    rewrite (frameLoop_virtual_eq c w Href). cbn [snd].
    apply updates_iff_changed_sampled.
    + by rewrite updates_requested.
    + by rewrite prevRefRect_requested, prevRefRect_sampled.
  - intros id Hv Hid. destruct reference as [|c] eqn:Href; [done|].
    destruct (virtual_frame c id w Href Hid) as (Hu & Hp & _).
    apply updates_iff_changed_sampled; [|done]. by rewrite Hu, updates_sampled.
  - intros o r1 rest1 r2 rest2 He Ho w1 w2 w3.
    destruct reference as [el|] eqn:Href; [|done].
    destruct (trigger_iteration o r1 rest1 w Ho) as (_ & Hp1 & Hin & Hc).
    fold w1 in Hp1, Hin, Hc.
    destruct (frame_installs el _ w1 Href Hin) as (Hu2 & Hp2 & Ho2).
    fold w2 in Hu2, Hp2, Ho2.
    rewrite Hc in Ho2.
    destruct (trigger_iteration _ r2 rest2 w2 Ho2) as (Hu3 & _).
    fold w3 in Hu3.
    by rewrite Hu3, Hp2, Hp1, Hu2.
  - intros id r2 Hv Hid w1 w2.
    destruct reference as [|c] eqn:Href; [done|].
    destruct (virtual_frame c id w Href Hid) as (_ & Hp1 & Hin).
    fold w1 in Hp1, Hin.
    assert (S (raf_counter w) ∈ raf_pending (step w1 (EvLayout r2))) as Hin'
      by (rewrite step_layout; by destruct w1).
    destruct (virtual_frame c _ _ Href Hin') as (Hu2 & _).
    fold w2 in Hu2. rewrite Hu2, step_layout.
    assert (prevRefRect (set_ref_rect r2 w1) = prevRefRect w1
            ∧ ref_rect (set_ref_rect r2 w1) = r2
            ∧ updates (set_ref_rect r2 w1) = updates w1) as (-> & -> & ->)
      by (by destruct w1).
    by rewrite Hp1.
Qed.

(** C5, amended: an iteration of the poller that has a sample, and whose
    call of [update], if it makes one, returns, ends by requesting the next
    frame, whether or not the sample differs from the snapshot, on both
    paths.  On the path of the intersection trigger the sample is the entry
    that the callback receives; in every world, a callback that receives no
    entry returns at once and changes nothing: nothing is sampled, nothing
    requested, and the trigger stays as it is. *)
Theorem poller_requests_next_frame w :
  (∀ next rest,
     requests_next_frame w (intersectionCallback (next :: rest) w).2) ∧
  (∀ o next rest, o ∈ (io_targets w).*1 →
     requests_next_frame w (step w (EvIntersection o (next :: rest)))) ∧
  (isElement reference = false → requests_next_frame w (frameLoop w).2) ∧
  (∀ id, isElement reference = false → id ∈ raf_pending w →
     requests_next_frame w (step w (EvAnimationFrame id))) ∧
  intersectionCallback [] w = (Some tt, w) ∧
  (∀ o, step w (EvIntersection o []) = w).
Proof.
  split; [|split; [|split; [|split; [|split]]]].
  - intros next rest. rewrite intersectionCallback_eq.
    apply requests_next_frame_sampled.
  - intros o next rest Ho.
    rewrite step_intersection, bool_decide_eq_true_2 by done.
    apply requests_next_frame_sampled.
  - intros Hv. destruct reference as [|c] eqn:Href; [done|].
    rewrite (frameLoop_virtual_eq c w Href). apply requests_next_frame_sampled.
  - intros id Hv Hid.
    rewrite step_animationFrame, bool_decide_eq_true_2 by done. cbn zeta.
    destruct reference as [|c] eqn:Href; [done|].
    set (w' := set_raf_pending _ w).
    apply requests_next_frame_requested.
    + rewrite sampled_counter. by destruct w.
    + destruct (extends_sampled (ref_rect w') w') as [_ (tr & Ht & _)].
      exists tr. rewrite Ht. by destruct w.
  - done.
  - intros o. rewrite step_intersection. by case_bool_decide.
Qed.

(** ** Disposal *)

Lemma stops_log_update w : stops (log [EUpdate] w) = stops w.
Proof. destruct w. wsimpl. by rewrite count_stops_app, Nat.add_0_r. Qed.

Lemma stopping_event_quiescent w e :
  Inv w → poller_event e = false → stops w < stops (step w e) →
  Quiescent (step w e).
Proof.
  intros H He.
  assert (∀ w', stops w < stops (updated w') → stops w' = stops w → Inv w' →
                Quiescent (updated w')) as Hupd.
  { intros w' Hlt Heq H'. unfold updated in *.
    destruct (stops_on _ && _).
    - by apply stopped_quiescent, Inv_log.
    - rewrite stops_log_update in Hlt. lia. }
  destruct e as [n t|entries|o entries|id|r|]; try done.
  - rewrite step_dispatch. case_bool_decide; [|lia]. intros. by apply Hupd.
  - rewrite step_resizeObserver. case_bool_decide; [lia|].
    destruct (initialUpdate w).
    + intros Hlt. assert (stops (set_initialUpdate false w) = stops w) by (by destruct w). lia.
    + intros Hlt.
      assert (Quiescent (updated w)) as Hq.
      { apply Hupd; [|done..]. by destruct (updated w). }
      by destruct (updated w).
  - rewrite step_layout. intros Hlt.
    assert (stops (set_ref_rect r w) = stops w) by (by destruct w). lia.
  - rewrite step_stop. intros _. by apply stopped_quiescent.
Qed.

(** C1, amended: once the disposer has run -- called by the holder of the
    disposer directly, or from inside a call of [update] made by an ancestor
    listener or by the ResizeObserver -- nothing is registered any more and
    no later event calls [update]. *)
Theorem stop_is_final r es1 e es2 :
  let w1 := run (setup r) es1 in
  let w2 := step w1 e in
  poller_event e = false → stops w1 < stops w2 →
  updates (run w2 es2) = updates w2 ∧ Quiescent (run w2 es2).
Proof.
  intros w1 w2 He Hlt.
  assert (Quiescent w2) as Hq.
  { apply stopping_event_quiescent; [|done..]. apply run_Inv, Inv_setup. }
  destruct (run_quiescent w2 es2 Hq). done.
Qed.

(** In particular, after a direct call of the disposer. *)
Corollary stop_event_is_final r es1 es2 :
  let w := step (run (setup r) es1) EvStop in
  updates (run w es2) = updates w.
Proof.
  intros w.
  assert (Quiescent w) as Hq.
  { subst w. rewrite step_stop. apply stopped_quiescent, run_Inv, Inv_setup. }
  by destruct (run_quiescent w es2 Hq).
Qed.

(** ** What the setup registers *)

Lemma elem_listen_effects anc e :
  e ∈ flat_map listen_effects anc →
  ∃ a t, e = EAddEventListener a t ∧ a ∈ anc ∧ flag t = true.
Proof.
  induction anc as [|a anc IH]; cbn; [by intros ?%elem_of_nil|].
  intros [He|He]%elem_of_app.
  - unfold listen_effects in He.
    destruct ancestorScroll eqn:Es, ancestorResize eqn:Er; cbn in He;
      repeat (apply elem_of_cons in He as [->|He]);
      try (by apply elem_of_nil in He).
    all: first [exists a, scroll; split; [done|]; split; [by left|done]
               |exists a, resize; split; [done|]; split; [by left|done]].
  - destruct (IH He) as (a' & t & -> & Ha & Ht).
    exists a', t. split; [done|]. split; [by right|done].
Qed.

Lemma elem_discovery_effects e :
  e ∈ discovery_effects →
  ancestorScroll || ancestorResize = true ∧
  (e = EGetOverflowAncestors floating ∨
   ∃ el, reference_element = Some el ∧ e = EGetOverflowAncestors el).
Proof.
  unfold discovery_effects.
  destruct (ancestorScroll || ancestorResize); [|by intros ?%elem_of_nil].
  intros [He|He]%elem_of_app; (split; [done|]).
  - destruct reference_element as [el|]; [|by apply elem_of_nil in He].
    apply list_elem_of_singleton in He. eauto.
  - apply list_elem_of_singleton in He. auto.
Qed.

Lemma elem_observed n :
  n ∈ observed →
  elementResize = true ∧
  (n = floating ∨ (animationFrame = false ∧ reference_element = Some n)).
Proof.
  unfold observed. destruct elementResize; [|by intros ?%elem_of_nil].
  intros [Hn|Hn]%elem_of_app; (split; [done|]).
  - destruct animationFrame; [by apply elem_of_nil in Hn|].
    destruct reference_element; [|by apply elem_of_nil in Hn].
    apply list_elem_of_singleton in Hn. right. by subst.
  - apply list_elem_of_singleton in Hn. auto.
Qed.

(** All that is in the trace before the poller starts. *)
Lemma elem_trace_wired r e :
  e ∈ trace (wired r) →
  e ∈ discovery_effects ∨ e ∈ flat_map listen_effects discovered ∨
  ∃ n, e = EResizeObserve n ∧ n ∈ observed.
Proof.
  unfold wired. cbn [trace].
  intros [He|[He|He]%elem_of_app]%elem_of_app; auto.
  right. right. apply list_elem_of_fmap in He as (n & -> & Hn). eauto.
Qed.

Lemma elem_foldl_observe ts acc n :
  n ∈ foldl observe acc ts → n ∈ acc ∨ n ∈ ts.
Proof.
  revert acc. induction ts as [|m ts IH]; intros acc; cbn [foldl]; [auto|].
  intros [Hn|Hn]%IH; [|right; by right].
  unfold observe in Hn. case_decide; [auto|].
  apply elem_of_app in Hn as [Hn| ->%list_elem_of_singleton]; [auto|].
  right. by left.
Qed.

Lemma extends_polling w : extends w (polling w).
Proof.
  unfold polling. destruct animationFrame; [|apply extends_refl].
  destruct reference; [apply extends_observing|].
  eapply extends_trans; [apply extends_sampled|apply extends_requested].
Qed.

Lemma ancestors_setup r : ancestors (setup r) = discovered.
Proof.
  rewrite setup_eq. unfold returned.
  destruct (extends_polling (wired r)) as [Ha _].
  destruct (polling (wired r)). cbn in *. done.
Qed.

Lemma trace_setup r :
  ∃ tr, trace (setup r) = trace (wired r) ++ tr ∧ Forall (later_effect discovered) tr.
Proof.
  rewrite setup_eq. unfold returned.
  destruct (extends_polling (wired r)) as [_ (tr & Ht & Hf)].
  destruct (polling (wired r)). wsimpl_all. exists (tr ++ [EUpdate]).
  rewrite Ht, app_assoc. split; [done|].
  apply Forall_app. split; [done|]. by repeat constructor.
Qed.

(** The trace of a run: that of the wiring, then effects of later kinds. *)
Lemma trace_run r es :
  ∃ tr, trace (run (setup r) es) = trace (wired r) ++ tr
        ∧ Forall (later_effect discovered) tr.
Proof.
  destruct (trace_setup r) as (tr & Ht & Hf).
  destruct (run_extends (setup r) es) as [_ (tr' & Ht' & Hf')].
  rewrite ancestors_setup in Hf'.
  exists (tr ++ tr'). rewrite Ht', Ht, app_assoc. split; [done|].
  by apply Forall_app.
Qed.

Lemma ancestors_run r es : ancestors (run (setup r) es) = discovered.
Proof.
  destruct (run_extends (setup r) es) as [-> _]. apply ancestors_setup.
Qed.

(** The ResizeObserver observes nothing new after the setup. *)
Lemma ro_targets_stopped w n : n ∈ ro_targets (stopped w) → n ∈ ro_targets w.
Proof. crunch; try done. by intros ?%elem_of_nil. Qed.

Lemma ro_targets_updated w n : n ∈ ro_targets (updated w) → n ∈ ro_targets w.
Proof. crunch; try done. all: by intros ?%elem_of_nil. Qed.

Lemma ro_targets_sampled r w n : n ∈ ro_targets (sampled r w) → n ∈ ro_targets w.
Proof. crunch; try done. all: by intros ?%elem_of_nil. Qed.

Lemma ro_targets_requested w : ro_targets (requested w) = ro_targets w.
Proof. by crunch. Qed.

Lemma ro_targets_disconnected w : ro_targets (disconnected w) = ro_targets w.
Proof. by crunch. Qed.

Lemma ro_targets_observing el w : ro_targets (observing el w) = ro_targets w.
Proof. by crunch. Qed.

Lemma ro_targets_step w e n : n ∈ ro_targets (step w e) → n ∈ ro_targets w.
Proof.
  destruct e as [m t|entries|o entries|id|r|].
  - rewrite step_dispatch. case_bool_decide; [apply ro_targets_updated|done].
  - rewrite step_resizeObserver. case_bool_decide; [done|].
    destruct (initialUpdate w).
    + by destruct w.
    + intros Hn. apply ro_targets_updated. by destruct (updated w).
  - rewrite step_intersection. case_bool_decide; [|done].
    destruct entries; [done|].
    rewrite ro_targets_disconnected, ro_targets_requested.
    apply ro_targets_sampled.
  - rewrite step_animationFrame. case_bool_decide; [|done]. cbn zeta.
    set (w' := set_raf_pending _ w).
    assert (ro_targets w' = ro_targets w) as <- by (by destruct w).
    destruct reference; [by rewrite ro_targets_observing|].
    rewrite ro_targets_requested. apply ro_targets_sampled.
  - rewrite step_layout. by destruct w.
  - rewrite step_stop. apply ro_targets_stopped.
Qed.

Lemma ro_targets_run w es n : n ∈ ro_targets (run w es) → n ∈ ro_targets w.
Proof.
  revert w. induction es as [|e es IH]; intros w; [done|].
  cbn. intros H%IH. by apply ro_targets_step in H.
Qed.

Lemma ro_targets_setup r n : n ∈ ro_targets (setup r) → n ∈ observed.
Proof.
  rewrite setup_eq. unfold returned.
  assert (ro_targets (polling (wired r)) = ro_targets (wired r)) as Hp.
  { unfold polling. destruct animationFrame; [|done].
    destruct reference; [apply ro_targets_observing|].
    rewrite ro_targets_requested. unfold sampled. by cbn. }
  intros Hn.
  assert (n ∈ ro_targets (wired r)) as Hw.
  { rewrite <- Hp. by destruct (polling (wired r)). }
  apply elem_foldl_observe in Hw as [Hw|Hw]; [by apply elem_of_nil in Hw|done].
Qed.

(** ** Frame polling supersedes scroll tracking and watching the reference *)

(** C4: with frame polling enabled, whatever the other options, no scroll
    listener is ever added and the ResizeObserver is never told to observe
    anything but the floating element: not during the setup and not at any
    later event.  So the element of the reference (itself, or its context
    element) is never observed, unless it is the floating element. *)
Theorem animationFrame_supersedes r es :
  Options.animationFrame options = Some true →
  let w := run (setup r) es in
  (∀ n, EAddEventListener n scroll ∉ trace w) ∧
  (∀ n, (n, scroll) ∉ listeners w) ∧
  (∀ n, EResizeObserve n ∈ trace w → n = floating) ∧
  (∀ n, n ∈ ro_targets w → n = floating) ∧
  (∀ el, reference_element = Some el → el ≠ floating →
     (EResizeObserve el ∉ trace w) ∧ (el ∉ ro_targets w)).
Proof.
  intros Hopt w.
  assert (animationFrame = true) as Haf by (unfold animationFrame; by rewrite Hopt).
  assert (ancestorScroll = false) as Hs.
  { unfold ancestorScroll. rewrite Haf. apply andb_false_r. }
  destruct (trace_run r es) as (tr & Ht & Hf). fold w in Ht.
  rewrite Forall_forall in Hf.
  assert (∀ n, EResizeObserve n ∈ trace w → n = floating) as Hobs.
  { intros n. rewrite Ht. intros [Hn|Hn]%elem_of_app; [|by apply Hf in Hn].
    apply elem_trace_wired in Hn as [Hn|[Hn|Hn]].
    - by apply elem_discovery_effects in Hn as [_ [?|(? & _ & ?)]].
    - by apply elem_listen_effects in Hn as (? & ? & ? & _).
    - destruct Hn as (m & [= <-] & [_ [?|[? _]]]%elem_observed); [done|congruence]. }
  assert (∀ n, n ∈ ro_targets w → n = floating) as Hro.
  { intros n Hn%ro_targets_run%ro_targets_setup.
    apply elem_observed in Hn as [_ [?|[? _]]]; [done|congruence]. }
  split; [|split; [|split; [done|split; [done|]]]].
  - intros n. rewrite Ht. intros [Hn|Hn]%elem_of_app; [|by apply Hf in Hn].
    apply elem_trace_wired in Hn as [Hn|[Hn|Hn]].
    + by apply elem_discovery_effects in Hn as [_ [?|(? & _ & ?)]].
    + apply elem_listen_effects in Hn as (a & t & [= <- <-] & _ & Hflag).
      cbn in Hflag. congruence.
    + by destruct Hn as (? & ? & _).
  - intros n Hn.
    assert (Inv w) as H by apply run_Inv, Inv_setup.
    destruct (inv_listeners _ H _ _ Hn) as [_ Hflag]. cbn in Hflag. congruence.
  - intros el _ Hne. split; intros Hin; [apply Hobs in Hin|apply Hro in Hin]; done.
Qed.

(** ** No ancestors without ancestor tracking *)

(** C10: when ancestor scroll tracking, as forced off by frame polling, and
    ancestor resize tracking are both off, the ancestors are not discovered:
    the list of ancestors is empty, [getOverflowAncestors] is never called,
    and no listener is ever added or removed, in the setup, at later events
    or by the disposer. *)
Theorem no_ancestors_without_tracking r es :
  ancestorScroll = false → ancestorResize = false →
  let w := run (setup r) es in
  ancestors w = [] ∧ listeners w = [] ∧
  Forall (λ e, ancestor_effect e = false) (trace w).
Proof.
  intros Hs Hr w.
  assert (discovered = []) as Hd by (unfold discovered; by rewrite Hs, Hr).
  assert (ancestors w = []) as Ha by (unfold w; by rewrite ancestors_run).
  split; [done|]. split.
  - apply elem_of_nil_inv. intros [n t] Hn.
    assert (Inv w) as H by apply run_Inv, Inv_setup.
    destruct (inv_listeners _ H _ _ Hn) as [Hin _].
    rewrite Ha in Hin. by apply elem_of_nil in Hin.
  - destruct (trace_run r es) as (tr & Ht & Hf). fold w in Ht.
    rewrite Ht. apply Forall_app. split.
    + apply Forall_forall. intros e [He|[He|He]]%elem_trace_wired.
      * apply elem_discovery_effects in He as [He _]. by rewrite Hs, Hr in He.
      * apply elem_listen_effects in He as (a & t & _ & Ha' & _).
        rewrite Hd in Ha'. by apply elem_of_nil in Ha'.
      * by destruct He as (n & -> & _).
    + eapply Forall_impl; [done|]. rewrite Hd.
      intros [] He; cbn in *; try done. destruct He as [He _].
      by apply elem_of_nil in He.
Qed.

(** ** A virtual reference without context element *)

(** C8: for a virtual reference without [contextElement] and with the
    default options, the ancestors are those of the floating element and
    nothing else: [getOverflowAncestors] is called on the floating element
    only, the listeners go to its ancestors, and the ResizeObserver observes
    the floating element only, in the setup and ever after. *)
Theorem virtual_reference_without_context r :
  reference = VirtualElement None → options = Options.empty →
  ancestors (setup r) = getOverflowAncestors floating ∧
  trace (setup r)
  = EGetOverflowAncestors floating
    :: flat_map (λ a, [EAddEventListener a scroll; EAddEventListener a resize])
         (getOverflowAncestors floating)
    ++ [EResizeObserve floating; EUpdate] ∧
  ro_targets (setup r) = [floating] ∧
  ∀ es n,
    let w := run (setup r) es in
    (EGetOverflowAncestors n ∈ trace w → n = floating) ∧
    (∀ t, EAddEventListener n t ∈ trace w → n ∈ getOverflowAncestors floating) ∧
    (EResizeObserve n ∈ trace w → n = floating) ∧
    (n ∈ ro_targets w → n = floating).
Proof.
  intros Href Hopt.
  assert (animationFrame = false) as Haf by (unfold animationFrame; by rewrite Hopt).
  assert (ancestorScroll = true) as Hs.
  { unfold ancestorScroll, _ancestorScroll. by rewrite Haf, Hopt. }
  assert (ancestorResize = true) as Hr by (unfold ancestorResize; by rewrite Hopt).
  assert (elementResize = true) as He by (unfold elementResize; by rewrite Hopt).
  assert (reference_element = None) as Hre by (unfold reference_element; by rewrite Href).
  assert (discovered = getOverflowAncestors floating) as Hd.
  { unfold discovered. by rewrite Hs, Hr, Hre. }
  assert (observed = [floating]) as Ho.
  { unfold observed. by rewrite He, Haf, Hre. }
  split; [by rewrite ancestors_setup|]. split; [|split].
  - rewrite setup_eq. unfold returned, polling, wired. rewrite Haf. wsimpl.
    rewrite Hd, Ho. unfold discovery_effects, listen_effects.
    rewrite Hs, Hr, Hre. cbn. by rewrite <- app_assoc.
  - rewrite setup_eq. unfold returned, polling, wired. rewrite Haf. wsimpl.
    rewrite Ho. cbn. unfold observe. case_decide as Hin; [|done].
    by apply elem_of_nil in Hin.
  - intros es n w.
    destruct (trace_run r es) as (tr & Ht & Hf). fold w in Ht.
    rewrite Forall_forall in Hf. rewrite Ht. repeat split.
    + intros [Hn|Hn]%elem_of_app; [|by apply Hf in Hn].
      apply elem_trace_wired in Hn as [Hn|[Hn|Hn]].
      * apply elem_discovery_effects in Hn as [_ [[= ->]|(el & Hel & _)]];
          [done|congruence].
      * by apply elem_listen_effects in Hn as (? & ? & ? & _).
      * by destruct Hn as (? & ? & _).
    + intros t [Hn|Hn]%elem_of_app; [|by apply Hf in Hn].
      apply elem_trace_wired in Hn as [Hn|[Hn|Hn]].
      * by apply elem_discovery_effects in Hn as [_ [?|(? & _ & ?)]].
      * apply elem_listen_effects in Hn as (a & t' & [= <- <-] & Ha & _).
        by rewrite <- Hd.
      * by destruct Hn as (? & ? & _).
    + intros [Hn|Hn]%elem_of_app; [|by apply Hf in Hn].
      apply elem_trace_wired in Hn as [Hn|[Hn|Hn]].
      * by apply elem_discovery_effects in Hn as [_ [?|(? & _ & ?)]].
      * by apply elem_listen_effects in Hn as (? & ? & ? & _).
      * destruct Hn as (m & [= <-] & Hm). rewrite Ho in Hm.
        by apply list_elem_of_singleton in Hm.
    + intros Hn%ro_targets_run%ro_targets_setup. rewrite Ho in Hn.
      by apply list_elem_of_singleton in Hn.
Qed.

(** ** The initial call and the first sample *)

Lemma wired_not_sampled r :
  (ESampleRect ∉ trace (wired r)) ∧ (EUpdate ∉ trace (wired r)).
Proof.
  split; intros [He|[He|He]]%elem_trace_wired.
  all: try (by apply elem_discovery_effects in He as [_ [?|(? & _ & ?)]]).
  all: try (by apply elem_listen_effects in He as (? & ? & ? & _)).
  all: by destruct He as (? & ? & _).
Qed.

(** C6, amended: with frame polling enabled, the only call of [update] in
    the setup is its last step.  For an element as reference the setup
    installs the intersection trigger before that call and samples nothing:
    the first sample is taken by the callback of the trigger, after the
    setup.  For a virtual reference the first iteration of the poller runs
    inside the setup, before the call of [update]: it samples the
    rectangle, calls nothing, and requests the first frame. *)
Theorem initial_update_and_first_sample r :
  Options.animationFrame options = Some true →
  (∀ el, reference = Element el →
     trace (setup r) = trace (wired r) ++ [EIntersectionObserve 0 el; EUpdate]) ∧
  (isElement reference = false →
     trace (setup r)
     = trace (wired r) ++ [ESampleRect; ERequestAnimationFrame 1; EUpdate]) ∧
  (ESampleRect ∉ trace (wired r)) ∧ (EUpdate ∉ trace (wired r)).
Proof.
  intros Hopt.
  assert (animationFrame = true) as Haf by (unfold animationFrame; by rewrite Hopt).
  split; [|split; [|apply wired_not_sampled]].
  - intros el Href. rewrite setup_eq. unfold returned, polling.
    rewrite Haf, Href. unfold observing, wired. wsimpl.
    rewrite <- !app_assoc. reflexivity.
  - intros Hv. rewrite setup_eq. unfold returned, polling. rewrite Haf.
    destruct reference; [done|].
    unfold requested, sampled, wired. cbn [prevRefRect rect_changed]. wsimpl.
    rewrite <- !app_assoc. reflexivity.
Qed.

(** ** The first firing of the ResizeObserver *)

Lemma initialUpdate_stopped w : initialUpdate (stopped w) = initialUpdate w.
Proof. by crunch. Qed.

Lemma initialUpdate_updated w : initialUpdate (updated w) = initialUpdate w.
Proof. by crunch. Qed.

Lemma initialUpdate_sampled r w : initialUpdate (sampled r w) = initialUpdate w.
Proof. by crunch. Qed.

Lemma initialUpdate_requested w : initialUpdate (requested w) = initialUpdate w.
Proof. by crunch. Qed.

Lemma initialUpdate_disconnected w : initialUpdate (disconnected w) = initialUpdate w.
Proof. by crunch. Qed.

Lemma initialUpdate_observing el w : initialUpdate (observing el w) = initialUpdate w.
Proof. by crunch. Qed.

(** Only the callback of the ResizeObserver touches [initialUpdate]. *)
Lemma initialUpdate_step w e :
  resize_firing e = false → initialUpdate (step w e) = initialUpdate w.
Proof.
  destruct e as [m t|entries|o entries|id|r|]; [|done|..]; intros _.
  - rewrite step_dispatch. case_bool_decide; [apply initialUpdate_updated|done].
  - rewrite step_intersection. case_bool_decide; [|done].
    destruct entries; [done|].
    by rewrite initialUpdate_disconnected, initialUpdate_requested,
      initialUpdate_sampled.
  - rewrite step_animationFrame. case_bool_decide; [|done]. cbn zeta.
    set (w' := set_raf_pending _ w).
    assert (initialUpdate w' = initialUpdate w) as <- by (by destruct w).
    destruct reference; [by rewrite initialUpdate_observing|].
    by rewrite initialUpdate_requested, initialUpdate_sampled.
  - rewrite step_layout. by destruct w.
  - rewrite step_stop. apply initialUpdate_stopped.
Qed.

Lemma initialUpdate_setup r : initialUpdate (setup r) = true.
Proof.
  rewrite setup_eq. unfold returned.
  assert (initialUpdate (polling (wired r)) = true) as H.
  { unfold polling. destruct animationFrame; [|done]. destruct reference.
    - by rewrite initialUpdate_observing.
    - by rewrite initialUpdate_requested, initialUpdate_sampled. }
  by destruct (polling (wired r)).
Qed.

Lemma ro_targets_step_nil w e : ro_targets w = [] → ro_targets (step w e) = [].
Proof.
  intros H. apply elem_of_nil_inv. intros n Hn%ro_targets_step.
  rewrite H in Hn. by apply elem_of_nil in Hn.
Qed.

(** While the ResizeObserver is connected, [initialUpdate] tells whether its
    callback has run. *)
Lemma initialUpdate_run r es :
  ro_targets (run (setup r) es) ≠ [] →
  initialUpdate (run (setup r) es) = negb (existsb resize_firing es).
Proof.
  induction es as [|e es IH] using rev_ind; [intros _; apply initialUpdate_setup|].
  rewrite run_snoc, existsb_app. cbn [existsb]. rewrite orb_false_r.
  intros Hne.
  assert (ro_targets (run (setup r) es) ≠ []) as Hne'.
  { intros Hnil. by apply (ro_targets_step_nil _ e) in Hnil. }
  destruct (resize_firing e) eqn:He.
  - rewrite orb_true_r. destruct e; try done.
    rewrite step_resizeObserver, bool_decide_eq_false_2 by done.
    by destruct (if initialUpdate _ then _ else _).
  - rewrite orb_false_r, initialUpdate_step by done. by apply IH.
Qed.

(** C7: the callback of the ResizeObserver has one flag for all that it
    observes, and does not look at its entries.  It calls [update] unless
    the flag is set, and clears the flag; so, as long as the observer is
    connected, its first firing after the setup calls nothing and every
    later firing calls [update] once.  The first firing therefore leaves
    the one call of the setup as the only call. *)
Theorem resize_observer_drops_first_firing r es entries :
  let w := run (setup r) es in
  (∀ w', updates (resizeCallback w').2
         = (if initialUpdate w' then updates w' else S (updates w'))
         ∧ initialUpdate (resizeCallback w').2 = false) ∧
  (ro_targets w ≠ [] →
     updates (step w (EvResizeObserver entries))
     = if existsb resize_firing es then S (updates w) else updates w) ∧
  updates (step (setup r) (EvResizeObserver entries)) = 1.
Proof.
  intros w.
  assert (∀ w', updates (resizeCallback w').2
         = (if initialUpdate w' then updates w' else S (updates w'))
         ∧ initialUpdate (resizeCallback w').2 = false) as Hcb.
  { intros w'. rewrite resizeCallback_eq. cbn [snd].
    destruct (initialUpdate w').
    - by destruct w'.
    - rewrite <- updates_updated. by destruct (updated w'). }
  assert (∀ w0, updates (step w0 (EvResizeObserver entries))
                = if bool_decide (ro_targets w0 = []) then updates w0
                  else if initialUpdate w0 then updates w0 else S (updates w0)) as Hstep.
  { intros w0. unfold step, handle, bind, gets.
    case_bool_decide; cbn [negb when]; [done|]. apply Hcb. }
  split; [done|]. split.
  - intros Hne. rewrite Hstep, bool_decide_eq_false_2 by done.
    unfold w. rewrite initialUpdate_run by done.
    by destruct (existsb resize_firing es).
  - rewrite Hstep, initialUpdate_setup, updates_setup.
    by case_bool_decide.
Qed.

(** * Further properties of the code *)

(** Keep a solver from using what the statement does not mention. *)
Ltac only_statement :=
  try clear stops_on; try clear getOverflowAncestors;
  try clear reference; try clear floating.

(** ** The listeners of the setup *)

Lemma listen_to_elem p q ls : q ∈ listen_to p ls ↔ q ∈ ls ∨ q = p.
Proof.
  unfold listen_to. case_decide as Hp.
  - split; [auto|]. by intros [?| ->].
  - rewrite elem_of_app, list_elem_of_singleton. done.
Qed.

Lemma NoDup_listen_to p ls : NoDup ls → NoDup (listen_to p ls).
Proof.
  intros H. unfold listen_to. case_decide as Hp; [done|].
  apply NoDup_app. split; [done|]. split; [|apply NoDup_singleton].
  by intros x Hx ->%list_elem_of_singleton.
Qed.

Lemma listen_elem ls a x :
  x ∈ listen ls a ↔ x ∈ ls ∨ (x.1 = a ∧ flag x.2 = true).
Proof.
  only_statement.
  unfold listen. destruct x as [n t]. cbn [fst snd].
  destruct ancestorScroll eqn:Es, ancestorResize eqn:Er;
    rewrite ?listen_to_elem; destruct t; cbn [flag]; rewrite ?Es, ?Er;
    naive_solver.
Qed.

Lemma NoDup_listen ls a : NoDup ls → NoDup (listen ls a).
Proof.
  intros H. unfold listen.
  destruct ancestorScroll, ancestorResize; auto using NoDup_listen_to.
Qed.

Lemma foldl_listen_iff anc ls x :
  x ∈ foldl listen ls anc ↔ x ∈ ls ∨ (x.1 ∈ anc ∧ flag x.2 = true).
Proof.
  only_statement.
  revert ls. induction anc as [|a anc IH]; intros ls; cbn [foldl].
  - split; [auto|]. intros [?|[?%elem_of_nil _]]; done.
  - rewrite IH, listen_elem, elem_of_cons. naive_solver.
Qed.

Lemma NoDup_foldl_listen anc ls : NoDup ls → NoDup (foldl listen ls anc).
Proof.
  revert ls. induction anc as [|a anc IH]; intros ls H; cbn [foldl]; [done|].
  by apply IH, NoDup_listen.
Qed.

Lemma listeners_setup r : listeners (setup r) = foldl listen [] discovered.
Proof.
  rewrite setup_eq. unfold returned, polling.
  destruct animationFrame; [destruct reference|];
    unfold observing, requested, sampled, wired;
    cbn [prevRefRect rect_changed]; by wsimpl.
Qed.

(** X1: when [autoUpdate] returns, [update] listens on exactly the
    ancestors, for exactly the event types whose flag is in force, and once
    only for each: an ancestor that the reference and the floating element
    share, and that is therefore twice in the list, has one listener of each
    type. *)
Theorem listeners_of_setup r :
  (∀ n t, (n, t) ∈ listeners (setup r) ↔ n ∈ ancestors (setup r) ∧ flag t = true) ∧
  NoDup (listeners (setup r)).
Proof.
  rewrite listeners_setup, ancestors_setup. split.
  - intros n t. rewrite foldl_listen_iff. cbn [fst snd]. split; [|auto].
    by intros [?%elem_of_nil|?].
  - apply NoDup_foldl_listen, NoDup_nil_2.
Qed.

Lemma updated_plain w : (∀ k, stops_on k = false) → updated w = log [EUpdate] w.
Proof. intros H. unfold updated. by rewrite H. Qed.

Lemma run_cons w e es : run w (e :: es) = run (step w e) es.
Proof. done. Qed.

Lemma updates_dispatches w ds :
  (∀ k, stops_on k = false) →
  updates (run w (map dispatch ds))
  = updates w + length (filter (λ d, d ∈ listeners w) ds).
Proof.
  intros Hplain. revert w. induction ds as [|[n t] ds IH]; intros w; [cbn; lia|].
  cbn [map]. rewrite run_cons, IH.
  assert (step w (dispatch (n, t))
          = if bool_decide ((n, t) ∈ listeners w) then log [EUpdate] w else w)
    as ->.
  { unfold dispatch. cbn [fst snd]. rewrite step_dispatch.
    case_bool_decide; [by apply updated_plain|done]. }
  rewrite filter_cons. case_bool_decide as Hin.
  - rewrite decide_True by done.
    assert (listeners (log [EUpdate] w) = listeners w) as -> by (by destruct w).
    assert (updates (log [EUpdate] w) = S (updates w)) as ->.
    { rewrite <- (updated_plain w) by done. apply updates_updated. }
    cbn [length]. lia.
  - by rewrite decide_False by done.
Qed.

(** X2: for a caller whose [update] does not call the disposer, a sequence
    of scroll and resize events after the setup calls [update] once for
    each event that is dispatched at an ancestor with a listener for its
    type, and not at all for the others. *)
Theorem dispatches_update_once_each r ds :
  (∀ k, stops_on k = false) →
  updates (run (setup r) (map dispatch ds))
  = 1 + length (filter (λ d, d ∈ listeners (setup r)) ds).
Proof. intros H. by rewrite updates_dispatches, updates_setup. Qed.

(** ** The targets of the ResizeObserver *)

Lemma foldl_observe_iff ts acc n :
  n ∈ foldl observe acc ts ↔ n ∈ acc ∨ n ∈ ts.
Proof.
  only_statement.
  revert acc. induction ts as [|m ts IH]; intros acc; cbn [foldl].
  - split; [auto|]. by intros [?|?%elem_of_nil].
  - rewrite IH, elem_of_cons. unfold observe. case_decide.
    + naive_solver.
    + rewrite elem_of_app, list_elem_of_singleton. naive_solver.
Qed.

Lemma NoDup_foldl_observe ts acc : NoDup acc → NoDup (foldl observe acc ts).
Proof.
  revert acc. induction ts as [|m ts IH]; intros acc H; cbn [foldl]; [done|].
  apply IH. unfold observe. case_decide as Hm; [done|].
  apply NoDup_app. split; [done|]. split; [|apply NoDup_singleton].
  by intros x Hx ->%list_elem_of_singleton.
Qed.

Lemma resizeObserver_setup r :
  ro_targets (setup r) = foldl observe [] observed ∧
  resizeObserver (setup r) = if elementResize then Some tt else None.
Proof.
  rewrite setup_eq. unfold returned, polling.
  destruct animationFrame; [destruct reference|];
    unfold observing, requested, sampled, wired;
    cbn [prevRefRect rect_changed]; by wsimpl.
Qed.

(** X3: when [autoUpdate] returns, a ResizeObserver exists exactly if
    element resize tracking is on, and it then observes the floating
    element and, unless frame polling is on, the element of the reference
    (the reference itself or its context element), each of them once. *)
Theorem resize_observer_targets r :
  (∀ n, n ∈ ro_targets (setup r) ↔
        elementResize = true ∧
        (n = floating ∨ (animationFrame = false ∧ reference_element = Some n))) ∧
  NoDup (ro_targets (setup r)) ∧
  resizeObserver (setup r) = (if elementResize then Some tt else None).
Proof.
  destruct (resizeObserver_setup r) as [-> ->]. split; [|split; [|done]].
  - clear r. try clear stops_on. try clear getOverflowAncestors.
    intros n. rewrite foldl_observe_iff. unfold observed.
    destruct elementResize.
    + rewrite elem_of_app, list_elem_of_singleton.
      destruct animationFrame, reference_element as [el|];
        rewrite ?list_elem_of_singleton, ?elem_of_nil; naive_solver.
    + rewrite !elem_of_nil. naive_solver.
  - apply NoDup_foldl_observe, NoDup_nil_2.
Qed.

(** ** No callback raises *)

(** X4: in every world, none of the callbacks that [autoUpdate] hands to the
    host raises: not [update] as a listener, not the callback of the
    ResizeObserver, not the callback of the intersection trigger with any
    entries, not [frameLoop] (whose [intersectionObserver.observe] is not
    guarded, but follows the assignment), and so no event does. *)
Theorem callbacks_never_throw w :
  (update w).1 = Some tt ∧
  (resizeCallback w).1 = Some tt ∧
  (∀ entries, (intersectionCallback entries w).1 = Some tt) ∧
  (frameLoop w).1 = Some tt ∧
  (∀ e, (handle e w).1 = Some tt).
Proof.
  split; [by rewrite update_eq|]. split; [by rewrite resizeCallback_eq|].
  split; [|split; [|intros e; apply handle_returns]].
  - intros [|r rest]; [done|]. by rewrite intersectionCallback_eq.
  - destruct reference as [el|c] eqn:Href.
    + by rewrite (frameLoop_element_eq el w Href).
    + by rewrite (frameLoop_virtual_eq c w Href).
Qed.

(** ** Calling the disposer again *)

Lemma filter_all {A} (P : A → Prop) `{∀ x, Decision (P x)} (l : list A) :
  (∀ x, x ∈ l → P x) → filter P l = l.
Proof.
  induction l as [|x l IH]; intros Hl; [done|].
  rewrite filter_cons, decide_True by (apply Hl; by left).
  f_equal. apply IH. intros y Hy. apply Hl. by right.
Qed.

Lemma unlisten_id ls a :
  (∀ x, x ∈ ls → flag x.2 = true → x.1 ≠ a) → unlisten ls a = ls.
Proof.
  intros H. unfold unlisten.
  destruct ancestorScroll eqn:Es, ancestorResize eqn:Er;
    rewrite ?filter_all; try done.
  all: intros x Hx ->; repeat (apply list_elem_of_filter in Hx as [_ Hx]);
    by apply (H _ Hx).
Qed.

Lemma foldl_unlisten_id anc ls :
  (∀ x, x ∈ ls → ∀ a, a ∈ anc → flag x.2 = true → x.1 ≠ a) →
  foldl unlisten ls anc = ls.
Proof.
  induction anc as [|a anc IH]; intros H; cbn [foldl]; [done|].
  rewrite unlisten_id.
  - apply IH. intros x Hx b Hb. apply H; [done|by right].
  - intros x Hx. apply H; [done|by left].
Qed.

(** X5: in every world, a second call of the disposer right after a first
    one leaves every variable and every registration as the first call left
    them; only the trace grows. *)
Theorem stop_twice_as_once w :
  set_trace [] (step (step w EvStop) EvStop) = set_trace [] (step w EvStop).
Proof.
  rewrite !step_stop.
  destruct w as [anc iu ro fid io prev ls rts its ioc pend cnt rr sr tr].
  unfold stopped. wsimpl.
  assert (foldl unlisten (foldl unlisten ls anc) anc = foldl unlisten ls anc) as ->.
  { apply foldl_unlisten_id. intros x [_ Hx]%foldl_unlisten_elem. done. }
  destruct fid as [[|id]|]; try done.
  rewrite (filter_all _ (filter _ pend)); [done|].
  by intros x [? _]%list_elem_of_filter.
Qed.

(** ** What the poller holds *)

Lemma frame_fires w id :
  Inv w → id ∈ raf_pending w →
  let w' := set_raf_pending (filter (λ i, i ≠ id) (raf_pending w)) w in
  Inv w' ∧ raf_pending w' = [] ∧ io_targets w' = [].
Proof.
  intros [Hf Hi He Hr Hl] Hid.
  assert (filter (λ i, i ≠ id) (raf_pending w) = []) as Hnil.
  { apply elem_of_nil_inv. intros i [Hne Hin]%list_elem_of_filter.
    destruct (Hf i Hin), (Hf id Hid). congruence. }
  assert (io_targets w = []) as Hio.
  { destruct (io_targets w) as [|p its] eqn:E; [done|].
    rewrite He in Hid by done. by apply elem_of_nil in Hid. }
  destruct w. wsimpl_all. rewrite Hnil.
  split; [split; wsimpl; try done|done].
  by intros ? ?%elem_of_nil.
Qed.

Lemma trigger_disconnected w :
  Inv w →
  io_targets (disconnected (requested w)) = [] ∧
  intersectionObserver (disconnected (requested w)) = None ∧
  raf_pending (disconnected (requested w)) = raf_pending w ++ [S (raf_counter w)] ∧
  frameId (disconnected (requested w)) = Some (S (raf_counter w)).
Proof.
  intros [Hf Hi He Hr Hl]. unfold requested, disconnected.
  destruct w as [anc iu ro fid io prev ls rts its ioc pend cnt rr sr tr].
  wsimpl_all.
  assert (match io with
          | Some o => filter (λ p : nat * Node, p.1 ≠ o) its
          | None => its
          end = []) as Hnil.
  { apply elem_of_nil_inv. intros p Hp. destruct io as [o|].
    - apply list_elem_of_filter in Hp as [Hne Hp]. apply Hi in Hp. congruence.
    - by apply Hi in Hp. }
  destruct io as [o|]; by wsimpl.
Qed.

Lemma handles_stopped w : poller_handles (stopped w) ≤ poller_handles w.
Proof.
  unfold poller_handles, stopped.
  destruct w as [? ? ? [[|?]|] [?|] ? ? ? its ? pend ? ? ? ?]; wsimpl;
    try pose proof (length_filter (λ i, i ≠ S n) pend);
    try pose proof (length_filter (λ p : nat * Node, p.1 ≠ n) its);
    try pose proof (length_filter (λ p : nat * Node, p.1 ≠ n0) its);
    lia.
Qed.

Lemma handles_log tr w : poller_handles (log tr w) = poller_handles w.
Proof. by destruct w. Qed.

Lemma handles_updated w : poller_handles (updated w) ≤ poller_handles w.
Proof.
  unfold updated. destruct (stops_on _ && _).
  - etrans; [apply handles_stopped|]. by rewrite handles_log.
  - by rewrite handles_log.
Qed.

Lemma handles_sampled r w : poller_handles (sampled r w) ≤ poller_handles w.
Proof.
  unfold sampled.
  assert (∀ w', poller_handles (set_prevRefRect (Some r) w') = poller_handles w')
    as -> by (by intros []).
  destruct (rect_changed _ _).
  - etrans; [apply handles_updated|]. by rewrite handles_log.
  - by rewrite handles_log.
Qed.

(** An iteration of the poller leaves one handle, whatever it found. *)
Lemma handles_intersection w r :
  Inv w → io_targets w ≠ [] →
  poller_handles (disconnected (requested (sampled r w))) = 1.
Proof.
  intros H Hio.
  assert (raf_pending (sampled r w) = []) as Hp
    by (apply sampled_pending_nil, (inv_excl _ H), Hio).
  destruct (trigger_disconnected (sampled r w)) as (Hi & _ & Hq & _);
    [by apply Inv_sampled|].
  unfold poller_handles. by rewrite Hi, Hq, Hp.
Qed.

Lemma handles_frame w id :
  Inv w → id ∈ raf_pending w →
  poller_handles
    (let w' := set_raf_pending (filter (λ i, i ≠ id) (raf_pending w)) w in
     match reference with
     | Element el => observing el w'
     | VirtualElement _ => requested (sampled (ref_rect w') w')
     end) = 1.
Proof.
  intros H Hid. destruct (frame_fires w id H Hid) as (H' & Hp & Hi).
  cbn zeta. set (w' := set_raf_pending _ w) in *.
  destruct reference.
  - unfold poller_handles, observing. destruct w'. wsimpl_all. by rewrite Hp, Hi.
  - pose proof (sampled_pending_nil (ref_rect w') w' Hp) as Hp'.
    pose proof (sampled_io_nil (ref_rect w') w' Hi) as Hi'.
    unfold poller_handles, requested. destruct (sampled _ w'). wsimpl_all.
    by rewrite Hp', Hi'.
Qed.

Lemma step_handles w e :
  Inv w → poller_handles (step w e) ≤ poller_handles w ∨ poller_handles (step w e) = 1.
Proof.
  intros H. destruct e as [n t|entries|o entries|id|r|].
  - rewrite step_dispatch. case_bool_decide; [|auto]. left. apply handles_updated.
  - rewrite step_resizeObserver. case_bool_decide; [auto|]. left.
    assert (∀ w', poller_handles (set_initialUpdate false w') = poller_handles w')
      as -> by (by intros []).
    destruct (initialUpdate w); [done|apply handles_updated].
  - rewrite step_intersection. case_bool_decide as Ho; [|auto].
    destruct entries as [|r rest]; [auto|]. right.
    apply handles_intersection; [done|].
    intros Hnil. rewrite Hnil in Ho. by apply elem_of_nil in Ho.
  - rewrite step_animationFrame. case_bool_decide as Hid; [|auto]. right.
    by apply handles_frame.
  - rewrite step_layout. left. by destruct w.
  - rewrite step_stop. left. apply handles_stopped.
Qed.

Lemma run_handles r es : poller_handles (run (setup r) es) ≤ 1.
Proof.
  induction es as [|e es IH] using rev_ind.
  - cbn [run foldl]. rewrite setup_eq. unfold returned.
    assert (poller_handles (polling (wired r)) ≤ 1) as H.
    { unfold polling, poller_handles.
      destruct animationFrame; [destruct reference|];
        unfold observing, requested, sampled, wired;
        cbn [prevRefRect rect_changed]; wsimpl; cbn; lia. }
    by destruct (polling (wired r)).
  - rewrite run_snoc.
    destruct (step_handles (run (setup r) es) e) as [Hle|Heq];
      [apply run_Inv, Inv_setup|lia|lia].
Qed.

(** X6: in every world that a setup can reach, the poller holds at most one
    thing in the host: nothing; or one frame request, the one whose
    identifier [frameId] has, which is not zero; or one intersection
    trigger, the one that [intersectionObserver] has.  So the disposer,
    which releases what these two variables hold, releases all. *)
Theorem poller_holds_at_most_one r es :
  let w := run (setup r) es in
  (raf_pending w = [] ∧ io_targets w = []) ∨
  (∃ id, raf_pending w = [id] ∧ frameId w = Some id ∧ id ≠ 0 ∧ io_targets w = []) ∨
  (∃ o n, io_targets w = [(o, n)] ∧ intersectionObserver w = Some o
          ∧ raf_pending w = []).
Proof.
  intros w.
  assert (Inv w) as [Hf Hi He Hr Hl] by apply run_Inv, Inv_setup.
  pose proof (run_handles r es) as Hle. fold w in Hle. unfold poller_handles in Hle.
  destruct (raf_pending w) as [|id [|? ?]] eqn:Ep,
           (io_targets w) as [|[o m] [|? ?]] eqn:Ei; cbn in Hle; try lia.
  - by left.
  - right. right. exists o, m. split; [done|]. split; [|done].
    apply (Hi (o, m)). by left.
  - right. left. exists id. destruct (Hf id) as [? ?]; [by left|]. done.
Qed.

(** A trigger that has delivered an entry is gone. *)
Lemma step_intersection_fired w o r rest :
  Inv w → o ∈ (io_targets w).*1 →
  io_targets (step w (EvIntersection o (r :: rest))) = [] ∧
  intersectionObserver (step w (EvIntersection o (r :: rest))) = None.
Proof.
  intros H Ho. rewrite step_intersection, bool_decide_eq_true_2 by done.
  destruct (trigger_disconnected (sampled r w)) as (Hi & Hv & _);
    [by apply Inv_sampled|]. done.
Qed.

(** X7: the intersection trigger is one-shot.  When the callback of a
    connected trigger receives an entry, the trigger is disconnected and
    the variable cleared before the callback returns, so the same trigger
    delivering again changes nothing. *)
Theorem trigger_is_one_shot r es o next rest entries :
  let w := run (setup r) es in
  let w' := step w (EvIntersection o (next :: rest)) in
  o ∈ (io_targets w).*1 →
  io_targets w' = [] ∧ intersectionObserver w' = None ∧
  step w' (EvIntersection o entries) = w'.
Proof.
  intros w w' Ho.
  destruct (step_intersection_fired w o next rest) as [Hi Hv];
    [apply run_Inv, Inv_setup|done|].
  fold w' in Hi, Hv. split; [done|]. split; [done|].
  rewrite step_intersection, Hi. by rewrite bool_decide_eq_false_2 by apply not_elem_of_nil.
Qed.

(** ** The poller runs until the disposer is called *)

Lemma count_stops_unlisten anc : count_stops (flat_map unlisten_effects anc) = 0.
Proof.
  induction anc as [|a anc IH]; [done|]. cbn [flat_map].
  rewrite count_stops_app, IH. unfold unlisten_effects.
  by destruct ancestorScroll, ancestorResize.
Qed.

Lemma stops_stopped w : stops (stopped w) = S (stops w).
Proof.
  unfold stopped. destruct w as [? ? [?|] [[|?]|] [?|] ? ? ? ? ? ? ? ? ? ?]; wsimpl;
    repeat rewrite ?count_stops_app, ?count_stops_cons, ?count_stops_unlisten;
    change (count_stops []) with 0; cbn [is_stop]; lia.
Qed.

Lemma updated_or_stopped w :
  updated w = log [EUpdate] w ∨ stops (updated w) = S (stops w).
Proof.
  unfold updated. destruct (stops_on _ && _); [right|by left].
  by rewrite stops_stopped, stops_log_update.
Qed.

Lemma stops_step w e : stops w ≤ stops (step w e).
Proof.
  destruct (step_extends w e) as [_ (tr & Ht & _)].
  unfold stops. rewrite Ht, count_stops_app. lia.
Qed.

Lemma step_alive w e :
  Inv w → poller_handles w = 1 → stops (step w e) = stops w →
  poller_handles (step w e) = 1.
Proof.
  intros H Hone. destruct e as [n t|entries|o entries|id|r|].
  - rewrite step_dispatch. case_bool_decide; [|done].
    destruct (updated_or_stopped w) as [-> | ->]; [|lia].
    by rewrite handles_log.
  - rewrite step_resizeObserver. case_bool_decide; [done|].
    assert (∀ w', poller_handles (set_initialUpdate false w') = poller_handles w'
                  ∧ stops (set_initialUpdate false w') = stops w')
      as Hset by (by intros []).
    destruct (Hset (if initialUpdate w then w else updated w)) as [-> ->].
    destruct (initialUpdate w); [done|].
    destruct (updated_or_stopped w) as [-> | ->]; [|lia].
    by rewrite handles_log.
  - rewrite step_intersection. case_bool_decide as Ho; [|done].
    destruct entries as [|r rest]; [done|]. intros _.
    apply handles_intersection; [done|].
    intros Hnil. rewrite Hnil in Ho. by apply elem_of_nil in Ho.
  - rewrite step_animationFrame. case_bool_decide as Hid; [|done]. intros _.
    by apply handles_frame.
  - rewrite step_layout. by destruct w.
  - rewrite step_stop, stops_stopped. lia.
Qed.

Lemma handles_setup_polling r :
  animationFrame = true → poller_handles (setup r) = 1.
Proof.
  intros Haf. rewrite setup_eq. unfold returned.
  assert (poller_handles (polling (wired r)) = 1) as H.
  { unfold polling, poller_handles. rewrite Haf.
    destruct reference;
      unfold observing, requested, sampled, wired;
      cbn [prevRefRect rect_changed]; by wsimpl. }
  by destruct (polling (wired r)).
Qed.

(** X8: with frame polling enabled, and a caller whose [update] returns,
    as long as the disposer has not been called the poller holds exactly
    one thing in the host, a frame request or a connected trigger.  No
    event makes the loop die: not a change, not a callback of the trigger
    without entry, not a call of [update] that returns. *)
Theorem poller_runs_until_stopped r es :
  Options.animationFrame options = Some true →
  stops (run (setup r) es) = 0 →
  poller_handles (run (setup r) es) = 1.
Proof.
  intros Hopt.
  assert (animationFrame = true) as Haf by (unfold animationFrame; by rewrite Hopt).
  induction es as [|e es IH] using rev_ind; intros Hs.
  - by apply handles_setup_polling.
  - rewrite run_snoc in *.
    pose proof (stops_step (run (setup r) es) e) as Hle.
    apply step_alive; [apply run_Inv, Inv_setup|apply IH; lia|lia].
Qed.

(** ** Without frame polling *)

Lemma not_poller_unlisten anc :
  Forall (λ e, poller_effect e = false) (flat_map unlisten_effects anc).
Proof.
  induction anc as [|a anc IH]; [by constructor|]. cbn [flat_map].
  apply Forall_app. split; [|done]. unfold unlisten_effects.
  destruct ancestorScroll, ancestorResize; by repeat constructor.
Qed.

Lemma never_polled_update w : never_polled w → never_polled (log [EUpdate] w).
Proof.
  destruct w. unfold never_polled. wsimpl.
  intros (-> & -> & -> & -> & -> & Hf). repeat split.
  apply Forall_app. split; [done|]. by repeat constructor.
Qed.

Lemma never_polled_stopped w : never_polled w → never_polled (stopped w).
Proof.
  destruct w as [anc iu ro fid io prev ls rts its ioc pend cnt rr sr tr].
  unfold never_polled, stopped. wsimpl.
  intros (-> & -> & -> & -> & -> & Hf). repeat split.
  apply Forall_app. split; [done|]. constructor; [done|].
  apply Forall_app. split; [apply not_poller_unlisten|].
  destruct ro; by repeat constructor.
Qed.

Lemma never_polled_updated w : never_polled w → never_polled (updated w).
Proof.
  intros H. unfold updated.
  destruct (stops_on _ && _); [apply never_polled_stopped|];
    by apply never_polled_update.
Qed.

Lemma never_polled_step w e : never_polled w → never_polled (step w e).
Proof.
  intros H. pose proof H as (Hp & Hi & _).
  destruct e as [n t|entries|o entries|id|r|].
  - rewrite step_dispatch. case_bool_decide; [by apply never_polled_updated|done].
  - rewrite step_resizeObserver. case_bool_decide; [done|].
    assert (∀ w', never_polled w' → never_polled (set_initialUpdate false w'))
      as Hset by (by intros []).
    apply Hset. destruct (initialUpdate w); [done|by apply never_polled_updated].
  - rewrite step_intersection, Hi.
    by rewrite bool_decide_eq_false_2 by apply not_elem_of_nil.
  - rewrite step_animationFrame, Hp.
    by rewrite bool_decide_eq_false_2 by apply not_elem_of_nil.
  - rewrite step_layout. by destruct w.
  - rewrite step_stop. by apply never_polled_stopped.
Qed.

Lemma never_polled_setup r : animationFrame = false → never_polled (setup r).
Proof.
  intros Haf. rewrite setup_eq. unfold returned, polling. rewrite Haf.
  assert (never_polled (wired r)) as H.
  { unfold never_polled. repeat split.
    apply Forall_forall. intros e [He|[He|He]]%elem_trace_wired.
    - by apply elem_discovery_effects in He as [_ [->|(? & _ & ->)]].
    - by apply elem_listen_effects in He as (? & ? & -> & _).
    - by destruct He as (? & -> & _). }
  apply never_polled_update in H.
  by destruct (log [EUpdate] (wired r)).
Qed.

(** X9: without frame polling the poller never runs, in the setup or at any
    later event: no frame is ever requested, no IntersectionObserver is ever
    created, the rectangle of the reference is never sampled, and
    [frameId], [intersectionObserver] and [prevRefRect] stay null; the
    disposer then has nothing to cancel or to disconnect there. *)
Theorem no_polling_without_animationFrame r es :
  animationFrame = false →
  let w := run (setup r) es in
  raf_pending w = [] ∧ io_targets w = [] ∧ frameId w = None ∧
  intersectionObserver w = None ∧ prevRefRect w = None ∧
  Forall (λ e, poller_effect e = false) (trace w).
Proof.
  intros Haf. cbn zeta. change (never_polled (run (setup r) es)).
  induction es as [|e es IH] using rev_ind; [by apply never_polled_setup|].
  rewrite run_snoc. by apply never_polled_step.
Qed.

(** ** The poller over a whole run *)

Lemma sampled_plain r w :
  (∀ k, stops_on k = false) →
  sampled r w
  = set_prevRefRect (Some r)
      (log (ESampleRect :: if rect_changed (prevRefRect w) r then [EUpdate] else [])
         w).
Proof.
  intros H. unfold sampled.
  destruct (rect_changed _ _); rewrite ?updated_plain by done;
    destruct w; wsimpl; by rewrite <- ?app_assoc.
Qed.

Lemma filter_ne_singleton (k : nat) : filter (λ i, i ≠ k) [k] = [].
Proof. by rewrite filter_cons, decide_False by (by intros ?). Qed.

Lemma filter_trigger (k : nat) (el : Node) :
  filter (λ p : nat * Node, p.1 ≠ k) [(k, el)] = [].
Proof. by rewrite filter_cons, decide_False by (by intros ?). Qed.

(** One frame of the poller for a virtual reference. *)
Lemma virtual_tick c w k r :
  reference = VirtualElement c → (∀ k, stops_on k = false) →
  raf_pending w = [k] → raf_counter w = k →
  let w2 := step (step w (EvLayout r)) (EvAnimationFrame k) in
  raf_pending w2 = [S k] ∧ raf_counter w2 = S k ∧ prevRefRect w2 = Some r ∧
  updates w2 = updates w + (if rect_changed (prevRefRect w) r then 1 else 0).
Proof.
  intros Href Hplain Hp Hc. cbn zeta.
  rewrite step_layout, step_animationFrame, Href.
  rewrite bool_decide_eq_true_2 by (destruct w; wsimpl_all; rewrite Hp; by left).
  cbn zeta. rewrite sampled_plain by done. unfold requested.
  destruct w as [anc iu ro fid io prev ls rts its ioc pend cnt rr sr tr].
  wsimpl_all. subst pend cnt. rewrite filter_ne_singleton.
  destruct (rect_changed prev r); wsimpl; repeat split; count.
Qed.

Lemma frames_count c rs :
  reference = VirtualElement c → (∀ k, stops_on k = false) →
  ∀ w k, raf_pending w = [k] → raf_counter w = k →
  updates (run w (frames k rs)) = updates w + changes (prevRefRect w) rs ∧
  raf_pending (run w (frames k rs)) = [k + length rs] ∧
  prevRefRect (run w (frames k rs)) = foldl (λ _ r, Some r) (prevRefRect w) rs.
Proof.
  intros Href Hplain. induction rs as [|r rs IH]; intros w k Hp Hc.
  - cbn. rewrite Hp. repeat split; f_equal; lia.
  - cbn [frames changes foldl]. rewrite !run_cons.
    destruct (virtual_tick c w k r Href Hplain Hp Hc) as (Hp2 & Hc2 & Hr2 & Hu2).
    destruct (IH _ (S k) Hp2 Hc2) as (-> & -> & ->).
    rewrite Hr2, Hu2. repeat split; [lia|f_equal; cbn; lia].
Qed.

Lemma last_default {A} (z : A) (l : list A) (d d' : A) :
  List.last (z :: l) d = List.last (z :: l) d'.
Proof.
  revert z. induction l as [|y l IH]; intros z; [done|].
  change (List.last (y :: l) d = List.last (y :: l) d'). apply IH.
Qed.

Lemma foldl_Some_last {A} (x : A) (l : list A) :
  foldl (λ _ r, Some r) (Some x) l = Some (List.last l x).
Proof.
  revert x. induction l as [|y l IH]; intros x; [done|].
  cbn [foldl]. rewrite IH. f_equal. destruct l as [|z l]; [done|].
  change (List.last (z :: l) y = List.last (z :: l) x). apply last_default.
Qed.

Lemma foldl_Some_last_None {A} (l : list A) :
  foldl (λ _ r, Some r) None l = last l.
Proof.
  destruct l as [|y l]; [done|]. cbn [foldl]. rewrite foldl_Some_last.
  revert y. induction l as [|z l IH]; intros y; [done|].
  rewrite last_cons_cons, <- IH. f_equal. destruct l as [|u l]; [done|].
  change (List.last (u :: l) y = List.last (u :: l) z). apply last_default.
Qed.

Lemma setup_virtual_polling c r :
  reference = VirtualElement c → animationFrame = true →
  raf_pending (setup r) = [1] ∧ raf_counter (setup r) = 1 ∧
  prevRefRect (setup r) = Some r.
Proof.
  intros Href Haf. rewrite setup_eq. unfold returned, polling.
  rewrite Haf, Href. unfold requested, sampled, wired.
  cbn [prevRefRect rect_changed]. by wsimpl.
Qed.

(** X10: for a virtual reference with frame polling, and a caller whose
    [update] returns and does not call the disposer, a run of frames calls
    [update] once in the setup and then once for every frame in which a
    field of the rectangle is [!==] to the one of the frame before (for the
    first frame, of the setup); a rectangle with a NaN field counts at
    every frame.  The snapshot ends as the last sample, and the next frame
    is requested. *)
Theorem virtual_poller_counts_changes r0 rs :
  isElement reference = false →
  Options.animationFrame options = Some true →
  (∀ k, stops_on k = false) →
  let w := run (setup r0) (frames 1 rs) in
  updates w = 1 + changes (Some r0) rs ∧
  raf_pending w = [1 + length rs] ∧
  prevRefRect w = Some (List.last rs r0).
Proof.
  intros Hv Hopt Hplain w.
  assert (animationFrame = true) as Haf by (unfold animationFrame; by rewrite Hopt).
  destruct reference as [|c] eqn:Href; [done|].
  destruct (setup_virtual_polling c r0 Href Haf) as (Hp & Hc & Hr).
  destruct (frames_count c rs Href Hplain (setup r0) 1 Hp Hc) as (Hu & Hq & Hs).
  subst w. rewrite Hu, Hq, Hs, Hr, updates_setup, foldl_Some_last. done.
Qed.

(** One iteration of the poller for an element. *)
Lemma element_tick el w k r :
  reference = Element el → (∀ k, stops_on k = false) →
  io_targets w = [(k, el)] → intersectionObserver w = Some k →
  io_created w = S k → raf_pending w = [] → raf_counter w = k →
  let w2 := step (step w (EvIntersection k [r])) (EvAnimationFrame (S k)) in
  io_targets w2 = [(S k, el)] ∧ intersectionObserver w2 = Some (S k) ∧
  io_created w2 = S (S k) ∧ raf_pending w2 = [] ∧ raf_counter w2 = S k ∧
  prevRefRect w2 = Some r ∧
  updates w2 = updates w + (if rect_changed (prevRefRect w) r then 1 else 0).
Proof.
  intros Href Hplain Hi Hv Hn Hp Hc. cbn zeta.
  rewrite step_intersection.
  rewrite bool_decide_eq_true_2 by (rewrite Hi; by left).
  rewrite sampled_plain by done.
  destruct w as [anc iu ro fid io prev ls rts its ioc pend cnt rr sr tr].
  wsimpl_all. subst its io ioc pend cnt.
  unfold disconnected, requested. wsimpl. rewrite filter_trigger.
  rewrite step_animationFrame, Href. wsimpl.
  rewrite bool_decide_eq_true_2 by (by left).
  rewrite filter_ne_singleton. unfold observing. wsimpl.
  destruct (rect_changed prev r); wsimpl; repeat split; count.
Qed.

Lemma ticks_count el rs :
  reference = Element el → (∀ k, stops_on k = false) →
  ∀ w k, io_targets w = [(k, el)] → intersectionObserver w = Some k →
         io_created w = S k → raf_pending w = [] → raf_counter w = k →
  updates (run w (ticks k rs)) = updates w + changes (prevRefRect w) rs ∧
  io_targets (run w (ticks k rs)) = [(k + length rs, el)] ∧
  prevRefRect (run w (ticks k rs)) = foldl (λ _ r, Some r) (prevRefRect w) rs.
Proof.
  intros Href Hplain. induction rs as [|r rs IH]; intros w k Hi Hv Hn Hp Hc.
  - cbn. rewrite Hi, !Nat.add_0_r. done.
  - cbn [ticks changes foldl]. rewrite !run_cons.
    destruct (element_tick el w k r Href Hplain Hi Hv Hn Hp Hc)
      as (Hi2 & Hv2 & Hn2 & Hp2 & Hc2 & Hr2 & Hu2).
    destruct (IH _ (S k) Hi2 Hv2 Hn2 Hp2 Hc2) as (-> & -> & ->).
    rewrite Hr2, Hu2. cbn [length]. rewrite Nat.add_succ_r.
    split; [lia|done].
Qed.

Lemma setup_element_polling el r :
  reference = Element el → animationFrame = true →
  io_targets (setup r) = [(0, el)] ∧ intersectionObserver (setup r) = Some 0 ∧
  io_created (setup r) = 1 ∧ raf_pending (setup r) = [] ∧
  raf_counter (setup r) = 0 ∧ prevRefRect (setup r) = None.
Proof.
  intros Href Haf. rewrite setup_eq. unfold returned, polling.
  rewrite Haf, Href. unfold observing, wired. by wsimpl.
Qed.

(** X11: for an element as reference with frame polling, and a caller whose
    [update] does not call the disposer, a run of iterations of the poller
    (the trigger delivers an entry, then the requested frame installs the
    next trigger) calls [update] once in the setup and then once for every
    entry whose rectangle differs from the one of the entry before; the
    first entry has nothing before it and calls nothing.  A new trigger is
    connected at the end. *)
Theorem element_poller_counts_changes r rs :
  isElement reference = true →
  Options.animationFrame options = Some true →
  (∀ k, stops_on k = false) →
  let w := run (setup r) (ticks 0 rs) in
  updates w = 1 + changes None rs ∧
  (io_targets w).*1 = [length rs] ∧
  prevRefRect w = last rs.
Proof.
  intros Hv Hopt Hplain w.
  assert (animationFrame = true) as Haf by (unfold animationFrame; by rewrite Hopt).
  destruct reference as [el|] eqn:Href; [|done].
  destruct (setup_element_polling el r Href Haf)
    as (Hi & Hio & Hn & Hp & Hc & Hr).
  destruct (ticks_count el rs Href Hplain (setup r) 0 Hi Hio Hn Hp Hc)
    as (Hu & Hq & Hs).
  subst w. rewrite Hu, Hq, Hs, Hr, updates_setup, foldl_Some_last_None. done.
Qed.

(** ** Calls of [update] per event, and the handles of the call *)

Lemma updates_set_raf_pending v w : updates (set_raf_pending v w) = updates w.
Proof. by destruct w. Qed.

Lemma updates_set_initialUpdate v w : updates (set_initialUpdate v w) = updates w.
Proof. by destruct w. Qed.

Lemma step_updates w e : updates w ≤ updates (step w e) ≤ S (updates w).
Proof.
  destruct e as [n t|entries|o entries|id|r|].
  - rewrite step_dispatch. case_bool_decide; [rewrite updates_updated|]; lia.
  - rewrite step_resizeObserver. case_bool_decide; [lia|].
    rewrite updates_set_initialUpdate.
    destruct (initialUpdate w); [|rewrite updates_updated]; lia.
  - rewrite step_intersection. case_bool_decide; [|lia].
    destruct entries as [|r rest]; [lia|].
    rewrite updates_disconnected, updates_requested, updates_sampled.
    destruct (rect_changed _ _); lia.
  - rewrite step_animationFrame. case_bool_decide; [|lia]. cbn zeta.
    destruct reference as [el|c].
    + rewrite updates_observing, updates_set_raf_pending. lia.
    + rewrite updates_requested, updates_sampled.
      destruct (rect_changed _ _); rewrite updates_set_raf_pending; lia.
  - rewrite step_layout. assert (updates (set_ref_rect r w) = updates w) as ->
      by (by destruct w). lia.
  - rewrite step_stop, updates_stopped. lia.
Qed.

(** X14: no event of the host makes more than one call of [update],
    whatever [update] itself does: a listener, the callback of the
    ResizeObserver and an iteration of the poller call it at most once, and
    the disposer not at all.  So a run of n events after the setup has
    between 1 and 1 + n calls. *)
Theorem each_event_updates_at_most_once r w es :
  updates w ≤ updates (run w es) ≤ updates w + length es
  ∧ 1 ≤ updates (run (setup r) es) ≤ 1 + length es.
Proof.
  assert (∀ w', updates w' ≤ updates (run w' es) ≤ updates w' + length es) as H.
  { induction es as [|e es IH]; intros w'; [cbn; lia|].
    rewrite run_cons. specialize (IH (step w' e)).
    pose proof (step_updates w' e). cbn [length]. lia. }
  split; [apply H|]. specialize (H (setup r)). by rewrite updates_setup in H.
Qed.

(** X15: what the host holds for a call, the closure of the call can
    reach.  In every world that the setup and the events after it can give,
    a requested frame is the one whose id [frameId] holds, a connected
    IntersectionObserver is the one that [intersectionObserver] holds, the
    ResizeObserver that observes something is in [resizeObserver], and each
    listener is on a node of [ancestors], for an event type whose option is
    on: the four things that the disposer goes through. *)
Theorem handles_are_tracked r es :
  let w := run (setup r) es in
  (∀ id, id ∈ raf_pending w → frameId w = Some id) ∧
  (∀ o el, (o, el) ∈ io_targets w → intersectionObserver w = Some o) ∧
  (ro_targets w ≠ [] → resizeObserver w = Some tt) ∧
  (∀ n t, (n, t) ∈ listeners w → n ∈ ancestors w ∧ flag t = true).
Proof.
  intros w. destruct (run_Inv _ es (Inv_setup r)) as [Hf Hio _ Hro Hl].
  split; [|split; [|split]]; [|  |done|done].
  - intros id Hid. by destruct (Hf id Hid).
  - intros o el Ho. by apply (Hio (o, el)).
Qed.

(** ** The disposer undoes the listeners of the setup *)

Lemma stopped_trace w :
  ∃ tl, trace (stopped w)
        = trace w ++ EStop :: flat_map unlisten_effects (ancestors w) ++ tl
        ∧ omap unlistened tl = [].
Proof.
  destruct w as [anc iu ro fid io prev ls rts its ioc pend cnt rr sr tr].
  unfold stopped. cbn [trace ancestors resizeObserver intersectionObserver frameId].
  eexists. split; [reflexivity|].
  by destruct ro, io, fid as [[|?]|].
Qed.

Lemma omap_unlisten_listen anc :
  omap unlistened (flat_map unlisten_effects anc)
  = omap listened (flat_map listen_effects anc).
Proof.
  induction anc as [|a anc IH]; [done|]. cbn [flat_map].
  rewrite !omap_app, IH. f_equal. unfold unlisten_effects, listen_effects.
  by destruct ancestorScroll, ancestorResize.
Qed.

Lemma omap_listened_later anc tr :
  Forall (later_effect anc) tr → omap listened tr = [].
Proof.
  induction 1 as [|e tr He _ IH]; [done|]. by destruct e.
Qed.

Lemma omap_listened_wired r :
  omap listened (trace (wired r))
  = omap listened (flat_map listen_effects discovered).
Proof.
  unfold wired. cbn [trace]. rewrite !omap_app.
  assert (omap listened discovery_effects = []) as ->.
  { unfold discovery_effects.
    by destruct (ancestorScroll || ancestorResize), reference_element. }
  assert (omap listened (map EResizeObserve observed) = []) as ->.
  { unfold observed. by destruct elementResize, animationFrame, reference_element. }
  by rewrite app_nil_r.
Qed.

(** X12: whenever the disposer is called in a world that the setup can
    reach, its calls of [removeEventListener] are, in the same order and
    with the same node and event type, the calls of [addEventListener] of
    the setup: it removes every listener that was added, also those of an
    ancestor that is twice in the list, and asks to remove no other. *)
Theorem stop_removes_what_setup_added r es :
  omap unlistened
    (drop (length (trace (run (setup r) es)))
       (trace (step (run (setup r) es) EvStop)))
  = omap listened (trace (setup r)).
Proof.
  rewrite step_stop.
  destruct (stopped_trace (run (setup r) es)) as (tl & -> & Htl).
  rewrite drop_app_length, ancestors_run. cbn [omap list_omap unlistened].
  rewrite omap_app, Htl, app_nil_r, omap_unlisten_listen.
  destruct (trace_setup r) as (tr & -> & Hf).
  by rewrite omap_app, (omap_listened_later _ _ Hf), app_nil_r, omap_listened_wired.
Qed.

End Model.

(** ** The two paths of the poller *)

(** X13: the two sampling paths of the poller detect the same changes.  For
    a caller whose [update] does not call the disposer, an element whose
    trigger delivers the rectangles [r0], then [rs], and a virtual
    reference that is at [r0] in the setup and at [rs] in the frames after
    it, get the same number of calls of [update]. *)
Theorem poller_paths_agree {Num : Type} `{!StrictNe Num}
    (getOverflowAncestors : Node → list Node) (stops_on : nat → bool)
    (el : Node) (c : option Node) (floating : Node) (options : Options.t)
    (r r0 : Rect.t Num) (rs : list (Rect.t Num)) :
  Options.animationFrame options = Some true →
  (∀ k, stops_on k = false) →
  updates (run stops_on (Element el) options
             (setup getOverflowAncestors stops_on (Element el) floating options r)
             (ticks 0 (r0 :: rs)))
  = updates (run stops_on (VirtualElement c) options
               (setup getOverflowAncestors stops_on (VirtualElement c) floating
                  options r0)
               (frames 1 rs)).
Proof.
  intros Hopt Hplain.
  assert (animationFrame options = true) as Haf
    by (unfold animationFrame; by rewrite Hopt).
  destruct (setup_element_polling getOverflowAncestors stops_on (Element el)
              floating options el r eq_refl Haf) as (Hi & Hio & Hn & Hp & Hc & Hr).
  destruct (ticks_count stops_on (Element el) options el (r0 :: rs) eq_refl
              Hplain _ 0 Hi Hio Hn Hp Hc) as (-> & _).
  destruct (setup_virtual_polling getOverflowAncestors stops_on (VirtualElement c)
              floating options c r0 eq_refl Haf) as (Hp' & Hc' & Hr').
  destruct (frames_count stops_on (VirtualElement c) options c rs eq_refl
              Hplain _ 1 Hp' Hc') as (-> & _).
  rewrite Hr, Hr', !updates_setup. done.
Qed.

(** * Concrete runs *)

Local Abbreviation element_polling :=
  (setup Page.overflowAncestors Page.plain (Element 1) 2 Page.polling Page.at_origin).
Local Abbreviation virtual_polling :=
  (setup Page.overflowAncestors Page.plain (VirtualElement None) 2 Page.polling
     Page.at_origin).
Local Abbreviation element_default :=
  (setup Page.overflowAncestors Page.plain (Element 1) 2 Options.empty Page.at_origin).
Local Abbreviation element_polling_stopping :=
  (setup Page.overflowAncestors Page.stopping_second (Element 1) 2 Page.polling
     Page.at_origin).

(** A call on a null handle that is not guarded raises in this model. *)
Example unguarded_disconnect_throws :
  (method (resizeObserver (init Page.at_origin)) ResizeObserver_disconnect
     (init Page.at_origin)).1 = None.
Proof. reflexivity. Qed.

(** Scenario B of the specification: five frames without a change. *)
Example five_frames_unchanged :
  updates (run Page.plain (VirtualElement None) Page.polling virtual_polling
             [EvAnimationFrame 1; EvAnimationFrame 2; EvAnimationFrame 3;
              EvAnimationFrame 4; EvAnimationFrame 5]) = 1.
Proof. vm_compute. reflexivity. Qed.

(** Scenario C: the reference moves between the second and the third frame. *)
Example change_before_third_frame :
  map (λ es, updates (run Page.plain (VirtualElement None) Page.polling
                        virtual_polling es))
    [[EvAnimationFrame 1];
     [EvAnimationFrame 1; EvAnimationFrame 2];
     [EvAnimationFrame 1; EvAnimationFrame 2; EvLayout Page.moved;
      EvAnimationFrame 3];
     [EvAnimationFrame 1; EvAnimationFrame 2; EvLayout Page.moved;
      EvAnimationFrame 3; EvAnimationFrame 4; EvAnimationFrame 5]]
  = [1; 1; 2; 2].
Proof. vm_compute. reflexivity. Qed.

(** C1, as stated, fails: the disposer is called from inside the call of
    [update] that the third event makes (an iteration of the poller that
    sees a change); the iteration then goes on to request the next frame,
    and two events later [update] is called again. *)
Lemma stop_inside_poller_update_leaks :
  stops (run Page.stopping_second (Element 1) Page.polling
           element_polling_stopping
           [EvIntersection 0 [Page.at_origin]; EvAnimationFrame 1])
  < stops (run Page.stopping_second (Element 1) Page.polling
             element_polling_stopping
             [EvIntersection 0 [Page.at_origin]; EvAnimationFrame 1;
              EvIntersection 1 [Page.moved]])
  ∧ updates (run Page.stopping_second (Element 1) Page.polling
               element_polling_stopping
               [EvIntersection 0 [Page.at_origin]; EvAnimationFrame 1;
                EvIntersection 1 [Page.moved];
                EvAnimationFrame 2; EvIntersection 2 [Page.at_origin]])
    ≠ updates (run Page.stopping_second (Element 1) Page.polling
                 element_polling_stopping
                 [EvIntersection 0 [Page.at_origin]; EvAnimationFrame 1;
                  EvIntersection 1 [Page.moved]]).
Proof. vm_compute. split; [lia|discriminate]. Qed.

Lemma stop_is_final_witness :
  poller_event (@EvStop Z) = false ∧
  stops (run Page.plain (Element 1) Options.empty element_default
           [EvDispatch 10 scroll])
  < stops (step Page.plain (Element 1) Options.empty
             (run Page.plain (Element 1) Options.empty element_default
                [EvDispatch 10 scroll]) EvStop) ∧
  updates (run Page.plain (Element 1) Options.empty
             (step Page.plain (Element 1) Options.empty
                (run Page.plain (Element 1) Options.empty element_default
                   [EvDispatch 10 scroll]) EvStop)
             [EvDispatch 10 scroll; EvResizeObserver [1]; EvDispatch 12 resize])
  = updates (step Page.plain (Element 1) Options.empty
               (run Page.plain (Element 1) Options.empty element_default
                  [EvDispatch 10 scroll]) EvStop).
Proof.
  split; [reflexivity|]. split; [vm_compute; lia|].
  refine (proj1 (stop_is_final Page.overflowAncestors Page.plain (Element 1) 2
                   Options.empty Page.at_origin [EvDispatch 10 scroll] EvStop
                   [EvDispatch 10 scroll; EvResizeObserver [1];
                    EvDispatch 12 resize] _ _));
    [reflexivity|vm_compute; lia].
Defined.

(** C5, as stated, fails: the callback of the trigger is registered and the
    disposer has not run, yet when the callback receives no entry it
    returns at once and no frame is requested. *)
Lemma no_entry_no_next_frame :
  0 ∈ (io_targets element_polling).*1 ∧
  stops element_polling = 0 ∧
  intersectionCallback Page.plain Page.polling [] element_polling
  = (Some tt, element_polling) ∧
  raf_pending (step Page.plain (Element 1) Page.polling element_polling
                 (EvIntersection 0 [])) = [] ∧
  trace (step Page.plain (Element 1) Page.polling element_polling
           (EvIntersection 0 [])) = trace element_polling.
Proof. vm_compute. split; [by left|done]. Qed.

Lemma poller_requests_next_frame_witness :
  0 ∈ (io_targets element_polling).*1 ∧
  requests_next_frame element_polling
    (step Page.plain (Element 1) Page.polling element_polling
       (EvIntersection 0 [Page.at_origin])).
Proof.
  assert (0 ∈ (io_targets element_polling).*1) as H by (vm_compute; by left).
  split; [exact H|].
  exact (proj1 (proj2 (poller_requests_next_frame Page.plain (Element 1)
                         Page.polling element_polling))
           0 Page.at_origin [] H).
Defined.

(** C6, as stated, fails for a virtual reference: in the setup the poller
    samples the rectangle before the one call of [update]. *)
Lemma virtual_reference_sampled_before_update :
  trace virtual_polling
  = [EGetOverflowAncestors 2; EAddEventListener 11 resize;
     EAddEventListener 12 resize; EResizeObserve 2]
    ++ ESampleRect :: [ERequestAnimationFrame 1; EUpdate]
  ∧ EUpdate ∉ [EGetOverflowAncestors 2; EAddEventListener 11 resize;
               EAddEventListener 12 resize; EResizeObserve 2].
Proof.
  split; [vm_compute; reflexivity|].
  intros H. repeat (apply elem_of_cons in H as [H|H]; [discriminate H|]).
  by apply elem_of_nil in H.
Qed.

Lemma initial_update_and_first_sample_witness :
  Options.animationFrame Page.polling = Some true ∧
  isElement (VirtualElement None) = false ∧
  trace virtual_polling
  = trace (wired Page.overflowAncestors (VirtualElement None) 2 Page.polling
             Page.at_origin)
    ++ [ESampleRect; ERequestAnimationFrame 1; EUpdate].
Proof.
  split; [reflexivity|]. split; [reflexivity|].
  refine (proj1 (proj2 (initial_update_and_first_sample Page.overflowAncestors
                          Page.plain (VirtualElement None) 2 Page.polling
                          Page.at_origin _)) _);
    reflexivity.
Defined.

(** C3, as stated, fails for a rectangle with a NaN field, which the
    [getBoundingClientRect] of a virtual reference can return: the
    reference never moves, every frame samples the very rectangle that is
    the snapshot, and every frame calls [update]. *)
Lemma nan_rectangle_updates_every_frame :
  let w0 := setup Page.overflowAncestors Page.plain (VirtualElement None) 2
              Page.polling Page.not_a_number in
  let w1 := step Page.plain (VirtualElement None) Page.polling w0
              (EvAnimationFrame 1) in
  let w2 := step Page.plain (VirtualElement None) Page.polling w1
              (EvAnimationFrame 2) in
  prevRefRect w0 = Some Page.not_a_number ∧ ref_rect w0 = Page.not_a_number ∧
  prevRefRect w1 = Some Page.not_a_number ∧ ref_rect w1 = Page.not_a_number ∧
  updates w0 = 1 ∧ updates w1 = 2 ∧ updates w2 = 3.
Proof. vm_compute. done. Qed.

(** The rectangles of the page but that one are [===] to themselves. *)
Example rectangles_self_equal :
  self_equal Page.at_origin ∧ self_equal Page.moved ∧
  ¬ self_equal Page.not_a_number.
Proof.
  split; [done|]. split; [done|]. intros [H _]. vm_compute in H. discriminate H.
Qed.

Lemma poller_updates_iff_changed_witness :
  isElement (VirtualElement None) = false ∧
  1 ∈ raf_pending
        (run Page.plain (VirtualElement None) Page.polling virtual_polling
           [EvLayout Page.moved]) ∧
  snapshot_differs
    (prevRefRect (run Page.plain (VirtualElement None) Page.polling
                    virtual_polling [EvLayout Page.moved]))
    (ref_rect (run Page.plain (VirtualElement None) Page.polling virtual_polling
                 [EvLayout Page.moved])) ∧
  updates (step Page.plain (VirtualElement None) Page.polling
             (run Page.plain (VirtualElement None) Page.polling virtual_polling
                [EvLayout Page.moved])
             (EvAnimationFrame 1))
  = S (updates (run Page.plain (VirtualElement None) Page.polling
                  virtual_polling [EvLayout Page.moved])).
Proof.
  assert (1 ∈ raf_pending
            (run Page.plain (VirtualElement None) Page.polling virtual_polling
               [EvLayout Page.moved])) as H by (vm_compute; by left).
  assert (snapshot_differs
            (prevRefRect (run Page.plain (VirtualElement None) Page.polling
                            virtual_polling [EvLayout Page.moved]))
            (ref_rect (run Page.plain (VirtualElement None) Page.polling
                         virtual_polling [EvLayout Page.moved]))) as Hd.
  { exists Page.at_origin. split; [vm_compute; reflexivity|].
    left. vm_compute. reflexivity. }
  split; [reflexivity|]. split; [exact H|]. split; [exact Hd|].
  refine (proj1 (proj1 (proj2 (proj2 (proj2
                   (poller_updates_iff_changed Page.plain
                      (VirtualElement None) Page.polling
                      (run Page.plain (VirtualElement None)
                         Page.polling virtual_polling
                         [EvLayout Page.moved])))))
                   1 _ H) Hd).
  reflexivity.
Defined.

Lemma animationFrame_supersedes_witness :
  Options.animationFrame Page.all_on = Some true ∧
  ∀ n, EAddEventListener n scroll
       ∉ trace (run Page.plain (Element 1) Page.all_on
                  (setup Page.overflowAncestors Page.plain (Element 1) 2
                     Page.all_on Page.at_origin)
                  [EvIntersection 0 [Page.at_origin]; EvAnimationFrame 1]).
Proof.
  split; [reflexivity|].
  refine (proj1 (animationFrame_supersedes Page.overflowAncestors Page.plain
                   (Element 1) 2 Page.all_on Page.at_origin
                   [EvIntersection 0 [Page.at_origin]; EvAnimationFrame 1] _)).
  reflexivity.
Defined.

Lemma no_ancestors_without_tracking_witness :
  ancestorScroll Page.untracked = false ∧
  ancestorResize Page.untracked = false ∧
  ancestors (run Page.plain (Element 1) Page.untracked
               (setup Page.overflowAncestors Page.plain (Element 1) 2
                  Page.untracked Page.at_origin)
               [EvResizeObserver [1]; EvStop]) = [].
Proof.
  split; [reflexivity|]. split; [reflexivity|].
  refine (proj1 (no_ancestors_without_tracking Page.overflowAncestors Page.plain
                   (Element 1) 2 Page.untracked Page.at_origin
                   [EvResizeObserver [1]; EvStop] _ _));
    reflexivity.
Defined.

Lemma virtual_reference_without_context_witness :
  VirtualElement None = VirtualElement None ∧
  Options.empty = Options.empty ∧
  ro_targets (setup Page.overflowAncestors Page.plain (VirtualElement None) 2
                Options.empty Page.at_origin) = [2].
Proof.
  split; [reflexivity|]. split; [reflexivity|].
  refine (proj1 (proj2 (proj2 (virtual_reference_without_context
                                 Page.overflowAncestors Page.plain
                                 (VirtualElement None) 2 Options.empty
                                 Page.at_origin _ _))));
    reflexivity.
Defined.

Lemma resize_observer_drops_first_firing_witness :
  ro_targets (run Page.plain (Element 1) Options.empty element_default
                [EvResizeObserver [1; 2]]) ≠ [] ∧
  updates (step Page.plain (Element 1) Options.empty
             (run Page.plain (Element 1) Options.empty element_default
                [EvResizeObserver [1; 2]])
             (EvResizeObserver [2]))
  = S (updates (run Page.plain (Element 1) Options.empty element_default
                  [EvResizeObserver [1; 2]])).
Proof.
  assert (ro_targets (run Page.plain (Element 1) Options.empty element_default
                        [EvResizeObserver [1; 2]]) ≠ []) as H
    by (vm_compute; discriminate).
  split; [exact H|].
  exact (proj1 (proj2 (resize_observer_drops_first_firing
                         Page.overflowAncestors Page.plain (Element 1) 2
                         Options.empty Page.at_origin
                         [EvResizeObserver [1; 2]] [2])) H).
Defined.

(** ** Concrete runs of the further properties *)

Lemma dispatches_update_once_each_witness :
  (∀ k, Page.plain k = false) ∧
  updates (run Page.plain (Element 1) Options.empty element_default
             (map dispatch
                [(10, scroll); (99, scroll); (12, resize); (10, scroll)]))
  = 1 + length (filter (λ d, d ∈ listeners element_default)
                  [(10, scroll); (99, scroll); (12, resize); (10, scroll)]).
Proof.
  split; [intros k; reflexivity|].
  refine (dispatches_update_once_each Page.overflowAncestors Page.plain
            (Element 1) 2 Options.empty Page.at_origin
            [(10, scroll); (99, scroll); (12, resize); (10, scroll)] _).
  intros k; reflexivity.
Defined.

(** In that run the listener of node 99 does not exist: three of the four
    events reach [update]. *)
Example three_of_four_dispatches_update :
  updates (run Page.plain (Element 1) Options.empty element_default
             (map dispatch
                [(10, scroll); (99, scroll); (12, resize); (10, scroll)])) = 4.
Proof. vm_compute. reflexivity. Qed.

Lemma trigger_is_one_shot_witness :
  0 ∈ (io_targets element_polling).*1 ∧
  io_targets (step Page.plain (Element 1) Page.polling element_polling
                (EvIntersection 0 [Page.at_origin])) = [] ∧
  intersectionObserver
    (step Page.plain (Element 1) Page.polling element_polling
       (EvIntersection 0 [Page.at_origin])) = None ∧
  step Page.plain (Element 1) Page.polling
    (step Page.plain (Element 1) Page.polling element_polling
       (EvIntersection 0 [Page.at_origin]))
    (EvIntersection 0 [Page.moved])
  = step Page.plain (Element 1) Page.polling element_polling
      (EvIntersection 0 [Page.at_origin]).
Proof.
  assert (0 ∈ (io_targets element_polling).*1) as H by (vm_compute; by left).
  split; [exact H|].
  exact (trigger_is_one_shot Page.overflowAncestors Page.plain (Element 1) 2
           Page.polling Page.at_origin [] 0 Page.at_origin [] [Page.moved] H).
Defined.

Lemma poller_runs_until_stopped_witness :
  Options.animationFrame Page.polling = Some true ∧
  stops (run Page.plain (Element 1) Page.polling element_polling
           [EvIntersection 0 [Page.at_origin]; EvAnimationFrame 1;
            EvDispatch 10 scroll; EvIntersection 1 [Page.moved]]) = 0 ∧
  poller_handles
    (run Page.plain (Element 1) Page.polling element_polling
       [EvIntersection 0 [Page.at_origin]; EvAnimationFrame 1;
        EvDispatch 10 scroll; EvIntersection 1 [Page.moved]]) = 1.
Proof.
  split; [reflexivity|]. split; [vm_compute; reflexivity|].
  refine (poller_runs_until_stopped Page.overflowAncestors Page.plain
            (Element 1) 2 Page.polling Page.at_origin
            [EvIntersection 0 [Page.at_origin]; EvAnimationFrame 1;
             EvDispatch 10 scroll; EvIntersection 1 [Page.moved]] _ _);
    [reflexivity|vm_compute; reflexivity].
Defined.

Lemma no_polling_without_animationFrame_witness :
  animationFrame Options.empty = false ∧
  never_polled
    (run Page.plain (Element 1) Options.empty element_default
       [EvDispatch 10 scroll; EvAnimationFrame 1;
        EvIntersection 0 [Page.at_origin]; EvResizeObserver [1]]).
Proof.
  split; [reflexivity|].
  refine (no_polling_without_animationFrame Page.overflowAncestors Page.plain
            (Element 1) 2 Options.empty Page.at_origin
            [EvDispatch 10 scroll; EvAnimationFrame 1;
             EvIntersection 0 [Page.at_origin]; EvResizeObserver [1]] _).
  reflexivity.
Defined.

Lemma virtual_poller_counts_changes_witness :
  isElement (VirtualElement None) = false ∧
  Options.animationFrame Page.polling = Some true ∧
  (∀ k, Page.plain k = false) ∧
  updates (run Page.plain (VirtualElement None) Page.polling virtual_polling
             (frames 1 [Page.at_origin; Page.moved; Page.moved]))
  = 1 + changes (Some Page.at_origin) [Page.at_origin; Page.moved; Page.moved] ∧
  raf_pending (run Page.plain (VirtualElement None) Page.polling virtual_polling
                 (frames 1 [Page.at_origin; Page.moved; Page.moved]))
  = [1 + length [Page.at_origin; Page.moved; Page.moved]] ∧
  prevRefRect (run Page.plain (VirtualElement None) Page.polling virtual_polling
                 (frames 1 [Page.at_origin; Page.moved; Page.moved]))
  = Some (List.last [Page.at_origin; Page.moved; Page.moved] Page.at_origin).
Proof.
  split; [reflexivity|]. split; [reflexivity|].
  split; [intros k; reflexivity|].
  refine (virtual_poller_counts_changes Page.overflowAncestors Page.plain
            (VirtualElement None) 2 Page.polling Page.at_origin
            [Page.at_origin; Page.moved; Page.moved] _ _ _);
    [reflexivity|reflexivity|intros k; reflexivity].
Defined.

(** With a rectangle whose x is NaN and that never changes, every frame
    counts as a change. *)
Example virtual_poller_nan_changes_always :
  changes (Some Page.not_a_number)
    [Page.not_a_number; Page.not_a_number; Page.not_a_number] = 3 ∧
  updates (run Page.plain (VirtualElement None) Page.polling
             (setup Page.overflowAncestors Page.plain (VirtualElement None) 2
                Page.polling Page.not_a_number)
             (frames 1 [Page.not_a_number; Page.not_a_number;
                        Page.not_a_number])) = 4.
Proof. vm_compute. done. Qed.

(** In that run the rectangle changes once: two calls of [update]. *)
Example virtual_poller_one_change :
  updates (run Page.plain (VirtualElement None) Page.polling virtual_polling
             (frames 1 [Page.at_origin; Page.moved; Page.moved])) = 2.
Proof. vm_compute. reflexivity. Qed.

Lemma element_poller_counts_changes_witness :
  isElement (Element 1) = true ∧
  Options.animationFrame Page.polling = Some true ∧
  (∀ k, Page.plain k = false) ∧
  updates (run Page.plain (Element 1) Page.polling element_polling
             (ticks 0 [Page.at_origin; Page.moved; Page.moved]))
  = 1 + changes None [Page.at_origin; Page.moved; Page.moved] ∧
  (io_targets (run Page.plain (Element 1) Page.polling element_polling
                 (ticks 0 [Page.at_origin; Page.moved; Page.moved]))).*1
  = [length [Page.at_origin; Page.moved; Page.moved]] ∧
  prevRefRect (run Page.plain (Element 1) Page.polling element_polling
                 (ticks 0 [Page.at_origin; Page.moved; Page.moved]))
  = last [Page.at_origin; Page.moved; Page.moved].
Proof.
  split; [reflexivity|]. split; [reflexivity|].
  split; [intros k; reflexivity|].
  refine (element_poller_counts_changes Page.overflowAncestors Page.plain
            (Element 1) 2 Page.polling Page.at_origin
            [Page.at_origin; Page.moved; Page.moved] _ _ _);
    [reflexivity|reflexivity|intros k; reflexivity].
Defined.

(** In that run the first sample has nothing to be compared with, so the
    first delivery does not count as a change: the one change after it
    gives the second call of [update]. *)
Example element_poller_one_change :
  updates (run Page.plain (Element 1) Page.polling element_polling
             (ticks 0 [Page.at_origin; Page.moved; Page.moved])) = 2.
Proof. vm_compute. reflexivity. Qed.

Lemma poller_paths_agree_witness :
  Options.animationFrame Page.polling = Some true ∧
  (∀ k, Page.plain k = false) ∧
  updates (run Page.plain (Element 1) Page.polling element_polling
             (ticks 0 [Page.at_origin; Page.moved; Page.at_origin]))
  = updates (run Page.plain (VirtualElement None) Page.polling virtual_polling
               (frames 1 [Page.moved; Page.at_origin])).
Proof.
  split; [reflexivity|]. split; [intros k; reflexivity|].
  refine (poller_paths_agree Page.overflowAncestors Page.plain 1 None 2
            Page.polling Page.at_origin Page.at_origin
            [Page.moved; Page.at_origin] _ _);
    [reflexivity|intros k; reflexivity].
Defined.

(** The listeners that the disposer removes, where two ancestors of the
    list are the same node. *)
Example disposer_removes_duplicates_too :
  omap unlistened
    (trace (step Page.plain (Element 1) Options.empty element_default EvStop))
  = [(10, scroll); (10, resize); (11, scroll); (11, resize);
     (11, scroll); (11, resize); (12, scroll); (12, resize)].
Proof. vm_compute. reflexivity. Qed.
